(** * Neural Style Transfer: losses and optimisation loop of [nst.ipynb]

    A shallow embedding of the notebook's tensor code.

    Numbers.  The modules [Torch], [Loss] and [Loop] compute over exact
    rationals ([Q], compared with [==]): they give the values the code
    would compute without rounding, and there the quotient by a zero
    count is the library's [x / 0 = 0].  The module [Float32] gives the
    loss functions over binary32 values, with rounding, overflow to
    infinity and nan; the statements that turn on rounding or on nan are
    made there.

    Tensors.  A tensor is its [shape] and its elements in row-major
    (contiguous) order, the layout [view] relies on.

    Failures.  A Python exception is the [Raise] outcome of a
    computation. *)

From Stdlib Require Import List Arith Bool Lia ZArith QArith Lqa Permutation.
From Stdlib Require String Ascii DecimalString DecimalNat.
From Stdlib Require Import Qround Qpower.
From Stdlib Require Qcanon.
Import ListNotations.

Open Scope Q_scope.

(** ** Outcomes: values or raised exceptions *)

Inductive exn : Type :=
| ValueError          (* tuple unpacking of a size of the wrong rank *)
| RuntimeError        (* torch: shape invalid for view / mm / elementwise op *)
| ZeroDivisionError   (* integer modulo by zero *)
| IOError             (* failure while writing an image file *)
| Unsupported.        (* broadcasting between unequal shapes: outside the model *)

Inductive outcome (A : Type) : Type :=
| Ok (a : A)
| Raise (e : exn).
Arguments Ok {A} a.
Arguments Raise {A} e.

Definition bind {A B : Type} (m : outcome A) (k : A -> outcome B) : outcome B :=
  match m with
  | Ok a => k a
  | Raise e => Raise e
  end.

Notation "x <- m ;; k" := (bind m (fun x => k))
  (at level 61, m at next level, right associativity).
Notation "' p <- m ;; k" := (bind m (fun x => let p := x in k))
  (at level 61, p pattern, m at next level, right associativity).

(** ** Tensors and the torch operations the notebook calls *)

Module Torch.

Record tensor : Type := mkTensor { shape : list nat; data : list Q }.

Definition numel_of (s : list nat) : nat := fold_right Nat.mul 1%nat s.
Definition numel (t : tensor) : nat := numel_of (shape t).

(** Every torch tensor holds exactly [numel] elements. *)
Definition wf (t : tensor) : Prop := length (data t) = numel t.

Definition Qsum (l : list Q) : Q := fold_right Qplus 0 l.

Definition get (t : tensor) (k : nat) : Q := nth k (data t) 0.

(** [b, c, h, w = t.size()] : unpacking needs exactly four dimensions. *)
Definition size4 (t : tensor) : outcome (nat * nat * nat * nat) :=
  match shape t with
  | [b; c; h; w] => Ok (b, c, h, w)
  | _ => Raise ValueError
  end.

(** [t.view(s)] : same elements, new shape; the element counts must agree. *)
Definition view (t : tensor) (s : list nat) : outcome tensor :=
  if (numel_of s =? numel t)%nat
  then Ok (mkTensor s (data t))
  else Raise RuntimeError.

(** Row-major table of [n] rows and [p] columns with entry [f i j]. *)
Definition tabulate (n p : nat) (f : nat -> nat -> Q) : list Q :=
  flat_map (fun i => map (f i) (seq 0 p)) (seq 0 n).

(** [t.t()] on a matrix. *)
Definition t (a : tensor) : outcome tensor :=
  match shape a with
  | [n; m] => Ok (mkTensor [m; n] (tabulate m n (fun j i => get a (i * m + j))))
  | _ => Raise RuntimeError
  end.

(** [a.mm(b)] : matrix product; inner dimensions must agree. *)
Definition mm (a b : tensor) : outcome tensor :=
  match shape a, shape b with
  | [n; m], [m'; p] =>
      if (m =? m')%nat
      then Ok (mkTensor [n; p]
                 (tabulate n p (fun i j =>
                    Qsum (map (fun k => get a (i * m + k) * get b (k * p + j))
                              (seq 0 m)))))
      else Raise RuntimeError
  | _, _ => Raise RuntimeError
  end.

(** [a - b] for tensors of one shape. *)
Fixpoint zip_with (f : Q -> Q -> Q) (l1 l2 : list Q) : list Q :=
  match l1, l2 with
  | x :: l1', y :: l2' => f x y :: zip_with f l1' l2'
  | _, _ => []
  end.

Definition list_nat_eqb (s1 s2 : list nat) : bool :=
  if list_eq_dec Nat.eq_dec s1 s2 then true else false.

Definition sub (a b : tensor) : outcome tensor :=
  if list_nat_eqb (shape a) (shape b)
  then Ok (mkTensor (shape a) (zip_with Qminus (data a) (data b)))
  else Raise Unsupported.

(** [a ** 2], elementwise. *)
Definition square (a : tensor) : tensor :=
  mkTensor (shape a) (map (fun x => x * x) (data a)).

(** [a / n] for a Python integer [n]. *)
Definition div_scalar (a : tensor) (n : nat) : tensor :=
  mkTensor (shape a) (map (fun x => x / inject_Z (Z.of_nat n)) (data a)).

(** [torch.mean(a)] : sum of the elements over their count. *)
Definition mean (a : tensor) : Q :=
  Qsum (data a) / inject_Z (Z.of_nat (numel a)).


End Torch.

Import Torch.

(** ** The loss functions of the notebook *)

Module Loss.

(** [content_loss(generated_feature, content_feature)] *)
Definition content_loss (generated_feature content_feature : tensor) : outcome Q :=
  d <- sub generated_feature content_feature ;;
  Ok (mean (square d)).

(** [gram_matrix(feature)] *)
Definition gram_matrix (feature : tensor) : outcome tensor :=
  ' (_, n_channels, height, width) <- size4 feature ;;
  feature <- view feature [n_channels; (height * width)%nat] ;;
  ft <- t feature ;;
  G <- mm feature ft ;;
  Ok (div_scalar G (n_channels * height * width)).

(** [style_loss(generated_feature, style_feature)] *)
Definition style_loss (generated_feature style_feature : tensor) : outcome Q :=
  G <- gram_matrix generated_feature ;;
  A <- gram_matrix style_feature ;;
  d <- sub G A ;;
  Ok (mean (square d)).

End Loss.

Import Loss.


(** Inner product of the channel rows [i] and [j] of the
    (channels, [m]) view: the entry the product [feature.mm(feature.t())]
    holds at row [i], column [j]. *)
Definition gram_entry (x : tensor) (m i j : nat) : Q :=
  Qsum (map (fun k => get x (i * m + k) * get x (j * m + k)) (seq 0 m)).

(** A feature of batch 1 and a second tensor of its shape: what the
    extractor returns at one layer for two images of one size. *)
Definition same_feature_shapes (f s : tensor) : Prop :=
  exists c h w, shape f = [1%nat; c; h; w] /\ shape s = shape f.

(** ** The optimisation loop *)

Module Loop.

(** The Gram computation written out in the loop body, for [G] and for [A]:
    [x.view(channel, height*width).mm(x.view(channel, height*width).t())]. *)
Definition inline_gram (x : tensor) (channel height width : nat) : outcome tensor :=
  v <- view x [channel; (height * width)%nat] ;;
  v' <- view x [channel; (height * width)%nat] ;;
  vt <- t v' ;;
  mm v vt.

(** One pass of the inner [for ... in zip(...)] body: the terms added to
    [c_loss] and to [s_loss].  An exception anywhere in the pass leaves
    the whole loop, so handing both terms back at the end loses nothing. *)
Definition layer_losses (gen_feature orig_feature style_feature : tensor)
  : outcome (Q * Q) :=
  ' (batch_size, channel, height, width) <- size4 gen_feature ;;
  d <- sub gen_feature orig_feature ;;
  let c_term := mean (square d) in
  G <- inline_gram gen_feature channel height width ;;
  A <- inline_gram style_feature channel height width ;;
  d' <- sub G A ;;
  Ok (c_term, mean (square d')).

(** The inner loop over [zip(generated_features, original_img_features,
    style_img_features)], threading [c_loss] and [s_loss]. *)
Fixpoint accumulate (gs os ss : list tensor) (c_loss s_loss : Q) : outcome (Q * Q) :=
  match gs, os, ss with
  | g :: gs', o :: os', s :: ss' =>
      ' (c_term, s_term) <- layer_losses g o s ;;
      accumulate gs' os' ss' (c_loss + c_term) (s_loss + s_term)
  | _, _, _ => Ok (c_loss, s_loss)
  end.

(** The per-layer terms on their own, in layer order. *)
Fixpoint per_layer (gs os ss : list tensor) : outcome (list (Q * Q)) :=
  match gs, os, ss with
  | g :: gs', o :: os', s :: ss' =>
      term <- layer_losses g o s ;;
      rest <- per_layer gs' os' ss' ;;
      Ok (term :: rest)
  | _, _, _ => Ok []
  end.

(** [total_loss = alpha * c_loss + beta * s_loss] *)
Definition total_loss (alpha beta c_loss s_loss : Q) : Q :=
  alpha * c_loss + beta * s_loss.

(** What one [print] of the loop reports. *)
Record progress_record : Type := mkRecord {
  rec_step : nat;
  rec_total_steps : nat;
  rec_content_loss : Q;
  rec_style_loss : Q;
  rec_total_loss : Q
}.

(** The collaborators the loop calls and the constants it reads.  The
    network, automatic differentiation, the Adam update and the image
    writer are opaque. *)
Record env (optstate : Type) : Type := mkEnv {
  model : tensor -> outcome (list tensor);      (* VGG.forward *)
  backward : tensor -> tensor;                  (* gradient of total_loss at generated *)
  optimizer_init : optstate;                    (* optim.Adam([generated], lr) *)
  optimizer_step : optstate -> tensor -> tensor -> optstate * tensor;
  save_image : tensor -> nat -> outcome unit;   (* save_image(generated, name of step) *)
  original_img : tensor;
  style_img : tensor;
  alpha : Q;
  beta : Q;
  total_steps : nat;
  report_interval : nat
}.
Arguments model {optstate} e.
Arguments backward {optstate} e.
Arguments optimizer_init {optstate} e.
Arguments optimizer_step {optstate} e.
Arguments save_image {optstate} e.
Arguments original_img {optstate} e.
Arguments style_img {optstate} e.
Arguments alpha {optstate} e.
Arguments beta {optstate} e.
Arguments total_steps {optstate} e.
Arguments report_interval {optstate} e.

(** The values the notebook assigns. *)
Definition reference_total_steps : nat := 10000.
Definition reference_report_interval : nat := 200.
Definition reference_alpha : Q := 1.
Definition reference_beta : Q := 1 # 100.

Record loop_state (optstate : Type) : Type := mkState {
  generated : tensor;                 (* the candidate image *)
  optimizer : optstate;
  stdout : list progress_record;      (* lines printed so far, oldest first *)
  files : list (nat * tensor)         (* images written so far, oldest first *)
}.
Arguments mkState {optstate}.
Arguments generated {optstate} l.
Arguments optimizer {optstate} l.
Arguments stdout {optstate} l.
Arguments files {optstate} l.

Section Machine.

Context {optstate : Type} (E : env optstate).

(** [generated = original_img.clone()] and a fresh optimiser. *)
Definition initial_state : loop_state optstate :=
  mkState (original_img E) (optimizer_init E) [] [].

(** Feature extraction and the inner loop of one iteration. *)
Definition losses (gen : tensor) : outcome (Q * Q) :=
  generated_features <- model E gen ;;
  original_img_features <- model E (original_img E) ;;
  style_img_features <- model E (style_img E) ;;
  accumulate generated_features original_img_features style_img_features 0 0.

(** The body of [for step in range(total_steps)].  The state returned is
    the one reached when the body ends or raises. *)
Definition iteration (step : nat) (st : loop_state optstate)
  : loop_state optstate * option exn :=
  match losses (generated st) with
  | Raise e => (st, Some e)
  | Ok (c_loss, s_loss) =>
      let total := total_loss (alpha E) (beta E) c_loss s_loss in
      let '(opt', gen') :=
        optimizer_step E (optimizer st) (generated st) (backward E (generated st)) in
      let st1 := mkState gen' opt' (stdout st) (files st) in
      if (report_interval E =? 0)%nat then (st1, Some ZeroDivisionError)
      else if (step mod report_interval E =? 0)%nat then
        let line := mkRecord step (total_steps E) c_loss s_loss total in
        let st2 := mkState gen' opt' (stdout st ++ [line]) (files st) in
        match save_image E gen' step with
        | Ok _ => (mkState gen' opt' (stdout st ++ [line]) (files st ++ [(step, gen')]), None)
        | Raise e => (st2, Some e)
        end
      else (st1, None)
  end.

(** The [for] loop over a range of steps. *)
Fixpoint for_range (steps : list nat) (st : loop_state optstate)
  : loop_state optstate * option exn :=
  match steps with
  | [] => (st, None)
  | step :: rest =>
      match iteration step st with
      | (st', None) => for_range rest st'
      | (st', Some e) => (st', Some e)
      end
  end.

Definition run : loop_state optstate * option exn :=
  for_range (seq 0 (total_steps E)) initial_state.

(** The loop as a state machine. *)
Inductive phase : Type :=
| Initialized
| Running (step : nat)
| Completed
| Aborted (e : exn).

Definition after (step : nat) : phase :=
  if (S step <? total_steps E)%nat then Running (S step) else Completed.

Definition next (c : phase * loop_state optstate)
  : option (phase * loop_state optstate) :=
  match fst c with
  | Initialized =>
      Some (if (0 <? total_steps E)%nat then Running 0 else Completed, snd c)
  | Running step =>
      match iteration step (snd c) with
      | (st', None) => Some (after step, st')
      | (st', Some e) => Some (Aborted e, st')
      end
  | Completed => None
  | Aborted _ => None
  end.

(** The configurations visited from [c], at most [fuel] transitions. *)
Fixpoint trace (fuel : nat) (c : phase * loop_state optstate)
  : list (phase * loop_state optstate) :=
  c :: match fuel with
       | O => []
       | S fuel' =>
           match next c with
           | Some c' => trace fuel' c'
           | None => []
           end
       end.

Definition is_completed (p : phase) : bool :=
  match p with Completed => true | _ => false end.

Definition is_terminal (p : phase) : bool :=
  match p with Completed | Aborted _ => true | _ => false end.

(** The whole run: [total_steps + 1] transitions reach a terminal phase. *)
Definition run_trace : list (phase * loop_state optstate) :=
  trace (S (total_steps E)) (Initialized, initial_state).

Definition final : phase * loop_state optstate :=
  last run_trace (Initialized, initial_state).

(** How often a trace visits [Completed]. *)
Definition completions (tr : list (phase * loop_state optstate)) : nat :=
  length (filter (fun c => is_completed (fst c)) tr).

(** Steps of the range at which the loop reports. *)
Definition report_steps : list nat :=
  filter (fun step => (step mod report_interval E =? 0)%nat) (seq 0 (total_steps E)).

End Machine.

End Loop.

Import Loop.

(** ** The loss functions in single precision

    The tensors of the notebook hold binary32 floats.  This module gives
    the loss functions over such values: every sum, product and quotient
    is rounded to the nearest binary32 number (ties to even, subnormal
    numbers included), a result beyond the largest finite number is an
    infinity, and 0/0, inf - inf, 0 * inf and inf / inf are nan.  One
    zero stands for both signed zeros.  Sums are accumulated from left to
    right, starting from 0, without fused multiply-add; the source does
    not fix the order in which torch adds. *)

Module Float32.

Inductive num : Type :=
| Fin (q : Q)     (* a finite value *)
| PInf            (* +inf *)
| NInf            (* -inf *)
| NaN.

Definition pow2 (e : Z) : Q := Qpower 2 e.

(** The integer nearest to [r >= 0], the even one of two equally near. *)
Definition round_half_even (r : Q) : Z :=
  let f := Qfloor r in
  match Qcompare (r - inject_Z f) (1 # 2) with
  | Lt => f
  | Gt => (f + 1)%Z
  | Eq => if Z.even f then f else (f + 1)%Z
  end.

(** The integer [e] with [2^e <= q < 2^(e+1)], for [q > 0]. *)
Definition exponent (q : Q) : Z :=
  let e0 := (Z.log2 (Qnum q) - Z.log2 (Zpos (Qden q)))%Z in
  if Qle_bool (pow2 e0) q then e0 else (e0 - 1)%Z.

(** Rounding of [q > 0]: 24 significant bits, spacing never below
    [2^-149], overflow from [2^128] on. *)
Definition round_pos (q : Q) : num :=
  let p := Z.max (exponent q - 23) (-149) in
  let m := round_half_even (q / pow2 p) in
  if ((104 <? p) || ((p =? 104) && (2 ^ 24 <=? m)))%Z
  then PInf
  else Fin (Qred (inject_Z m * pow2 p)).

Definition opp (a : num) : num :=
  match a with
  | Fin q => Fin (Qred (- q))
  | PInf => NInf
  | NInf => PInf
  | NaN => NaN
  end.

(** The binary32 number nearest to the rational [q]. *)
Definition round32 (q : Q) : num :=
  let q' := Qred q in
  match Qnum q' with
  | Z0 => Fin 0
  | Zpos _ => round_pos q'
  | Zneg _ => opp (round_pos (- q'))
  end.

Definition fadd (a b : num) : num :=
  match a, b with
  | NaN, _ | _, NaN => NaN
  | PInf, NInf | NInf, PInf => NaN
  | PInf, _ | _, PInf => PInf
  | NInf, _ | _, NInf => NInf
  | Fin x, Fin y => round32 (x + y)
  end.

Definition fsub (a b : num) : num := fadd a (opp b).

(** An infinity of the sign of [x], nan for [x = 0]. *)
Definition inf_times (positive : bool) (x : Q) : num :=
  match Qcompare x 0 with
  | Eq => NaN
  | Gt => if positive then PInf else NInf
  | Lt => if positive then NInf else PInf
  end.

Definition fmul (a b : num) : num :=
  match a, b with
  | NaN, _ | _, NaN => NaN
  | Fin x, Fin y => round32 (x * y)
  | Fin x, PInf | PInf, Fin x => inf_times true x
  | Fin x, NInf | NInf, Fin x => inf_times false x
  | PInf, PInf | NInf, NInf => PInf
  | PInf, NInf | NInf, PInf => NInf
  end.

Definition fdiv (a b : num) : num :=
  match a, b with
  | NaN, _ | _, NaN => NaN
  | Fin x, Fin y =>
      match Qcompare y 0 with
      | Eq => match Qcompare x 0 with Eq => NaN | Gt => PInf | Lt => NInf end
      | _ => round32 (x / y)
      end
  | Fin _, PInf | Fin _, NInf => Fin 0
  | PInf, Fin y => match Qcompare y 0 with Lt => NInf | _ => PInf end
  | NInf, Fin y => match Qcompare y 0 with Lt => PInf | _ => NInf end
  | _, _ => NaN
  end.

(** An element count as a float. *)
Definition of_count (n : nat) : num := round32 (inject_Z (Z.of_nat n)).

Definition is_finite (a : num) : bool :=
  match a with Fin _ => true | _ => false end.

(** Zero or above, +inf included; nan is not. *)
Definition nonneg (a : num) : Prop :=
  match a with
  | Fin q => 0 <= q
  | PInf => True
  | NInf => False
  | NaN => False
  end.

Record tensor : Type := mkTensor { shape : list nat; data : list num }.

Definition numel (a : tensor) : nat := numel_of (shape a).

Definition all_finite (a : tensor) : Prop :=
  Forall (fun v => is_finite v = true) (data a).

(** The float tensor holding the values of [x], each rounded. *)
Definition of_tensor (x : Torch.tensor) : tensor :=
  mkTensor (Torch.shape x) (map round32 (Torch.data x)).

Definition get (a : tensor) (k : nat) : num := nth k (data a) (Fin 0).

Definition sum (l : list num) : num := fold_left fadd l (Fin 0).

Definition size4 (a : tensor) : outcome (nat * nat * nat * nat) :=
  match shape a with
  | [b; c; h; w] => Ok (b, c, h, w)
  | _ => Raise ValueError
  end.

Definition view (a : tensor) (s : list nat) : outcome tensor :=
  if (numel_of s =? numel a)%nat
  then Ok (mkTensor s (data a))
  else Raise RuntimeError.

Definition table (n p : nat) (f : nat -> nat -> num) : list num :=
  flat_map (fun i => map (f i) (seq 0 p)) (seq 0 n).

Definition t (a : tensor) : outcome tensor :=
  match shape a with
  | [n; m] => Ok (mkTensor [m; n] (table m n (fun j i => get a (i * m + j))))
  | _ => Raise RuntimeError
  end.

Definition mm (a b : tensor) : outcome tensor :=
  match shape a, shape b with
  | [n; m], [m'; p] =>
      if (m =? m')%nat
      then Ok (mkTensor [n; p]
                 (table n p (fun i j =>
                    sum (map (fun k => fmul (get a (i * m + k)) (get b (k * p + j)))
                             (seq 0 m)))))
      else Raise RuntimeError
  | _, _ => Raise RuntimeError
  end.

Fixpoint zip_with (f : num -> num -> num) (l1 l2 : list num) : list num :=
  match l1, l2 with
  | x :: l1', y :: l2' => f x y :: zip_with f l1' l2'
  | _, _ => []
  end.

Definition sub (a b : tensor) : outcome tensor :=
  if list_nat_eqb (shape a) (shape b)
  then Ok (mkTensor (shape a) (zip_with fsub (data a) (data b)))
  else Raise Unsupported.

Definition square (a : tensor) : tensor :=
  mkTensor (shape a) (map (fun x => fmul x x) (data a)).

Definition div_scalar (a : tensor) (n : nat) : tensor :=
  mkTensor (shape a) (map (fun x => fdiv x (of_count n)) (data a)).

Definition mean (a : tensor) : num :=
  fdiv (sum (data a)) (of_count (numel a)).

(** [content_loss], [gram_matrix] and [style_loss], as in [Loss]. *)
Definition content_loss (generated_feature content_feature : tensor) : outcome num :=
  d <- sub generated_feature content_feature ;;
  Ok (mean (square d)).

Definition gram_matrix (feature : tensor) : outcome tensor :=
  ' (_, n_channels, height, width) <- size4 feature ;;
  feature <- view feature [n_channels; (height * width)%nat] ;;
  ft <- t feature ;;
  G <- mm feature ft ;;
  Ok (div_scalar G (n_channels * height * width)).

Definition style_loss (generated_feature style_feature : tensor) : outcome num :=
  G <- gram_matrix generated_feature ;;
  A <- gram_matrix style_feature ;;
  d <- sub G A ;;
  Ok (mean (square d)).

End Float32.

(** ** The feature extractor: class [VGG]

    Python tensors are objects.  [x = layer(x)] binds [x] to what the
    layer returns: a new tensor, or, for a layer that works in place, the
    very object it was given, with new contents.  [features.append(x)]
    stores a reference, so the forward pass is modelled over a heap of
    tensor objects. *)

Module VGG.

Import String.

(** [str(n)] for a non-negative integer: its decimal digits. *)
Definition str (n : nat) : string :=
  DecimalString.NilEmpty.string_of_uint (Nat.to_uint n).

(** A layer of the network: the values it computes, and whether it
    writes them into its argument. *)
Record layer : Type := mkLayer {
  apply : tensor -> outcome tensor;
  in_place : bool
}.

Record vgg : Type := mkVGG {
  chosen_features : list string;
  model : list layer
}.

(** [VGG.__init__], given [models.vgg19(pretrained=True).features]. *)
Definition init (features : list layer) : vgg :=
  mkVGG ["0"; "5"; "10"; "19"; "28"]%string (firstn 29 features).

(** [str(layer_num) in self.chosen_features] *)
Definition chosen (self : vgg) (layer_num : nat) : bool :=
  if in_dec string_dec (str layer_num) (chosen_features self) then true else false.

(** Tensor objects, addressed by position. *)
Definition heap : Type := list tensor.

Definition deref (h : heap) (r : nat) : tensor := nth r h (mkTensor [] []).

Fixpoint store (h : heap) (r : nat) (v : tensor) : heap :=
  match h, r with
  | [], _ => []
  | _ :: h', O => v :: h'
  | u :: h', S r' => u :: store h' r' v
  end.

(** The [for layer_num, layer in enumerate(self.model)] loop, from layer
    number [layer_num] on; [x] and the entries of [features] are
    references into [h]. *)
Fixpoint forward_loop (self : vgg) (layer_num : nat) (layers : list layer)
  (h : heap) (x : nat) (features : list nat) : outcome (heap * list nat) :=
  match layers with
  | [] => Ok (h, features)
  | l :: rest =>
      y <- apply l (deref h x) ;;
      let '(h', x') :=
        if in_place l then (store h x y, x) else (h ++ [y], List.length h) in
      let features' :=
        if chosen self layer_num then features ++ [x'] else features in
      forward_loop self (S layer_num) rest h' x' features'
  end.

(** [VGG.forward]: the tensors the returned list refers to, as they are
    when the method returns. *)
Definition forward (self : vgg) (x : tensor) : outcome (list tensor) :=
  ' (h, features) <- forward_loop self 0 (model self) [x] 0%nat [] ;;
  Ok (map (deref h) features).

(** The output of every layer in turn, each fed the output of the one
    before. *)
Fixpoint activations (layers : list layer) (v : tensor) : outcome (list tensor) :=
  match layers with
  | [] => Ok []
  | l :: rest =>
      y <- apply l v ;;
      acts <- activations rest y ;;
      Ok (y :: acts)
  end.

(** How many layers at the head of [layers] work in place. *)
Fixpoint run_length (layers : list layer) : nat :=
  match layers with
  | l :: rest => if in_place l then S (run_length rest) else 0%nat
  | [] => 0%nat
  end.

(** Picking the returned tensors out of the activations [acts] of
    [layers]: a chosen layer contributes the activation that stands as
    many places further as in-place layers follow it. *)
Fixpoint feature_values (self : vgg) (layer_num : nat) (layers : list layer)
  (acts : list tensor) : list tensor :=
  match layers, acts with
  | _ :: rest, y :: acts' =>
      (if chosen self layer_num
       then [nth (run_length rest) (y :: acts') (mkTensor [] [])]
       else [])
      ++ feature_values self (S layer_num) rest acts'
  | _, _ => []
  end.

(** [f"generated_{step}.png"] *)
Definition checkpoint_name (step : nat) : string :=
  ("generated_" ++ str step ++ ".png")%string.

End VGG.

(** ** Loading an image

    [Image.open] and the [loader] pipeline are outside the model: they
    are one function from a file name to the tensor [loader(image)], or
    to the exception raised.  [.to(device)] keeps shape and elements. *)

(** [t.unsqueeze(0)] *)
Definition unsqueeze0 (x : tensor) : tensor := mkTensor (1%nat :: shape x) (data x).

Definition load_image (open_and_load : String.string -> outcome tensor)
  (image_name : String.string) : outcome tensor :=
  image <- open_and_load image_name ;;
  Ok (unsqueeze0 image).

(** ** The candidate along the run *)

Section Trajectory.

Context {optstate : Type} (E : env optstate).

(** [optimizer.zero_grad(); total_loss.backward(); optimizer.step()] on
    the pair of optimiser state and candidate. *)
Definition update (p : optstate * tensor) : optstate * tensor :=
  optimizer_step E (fst p) (snd p) (backward E (snd p)).

(** Optimiser state and candidate after [k] updates. *)
Fixpoint updates (k : nat) : optstate * tensor :=
  match k with
  | O => (optimizer_init E, original_img E)
  | S k' => update (updates k')
  end.

(** A record that reports the losses of the candidate as it was before
    the update of its step. *)
Definition reports_losses_before_update (r : progress_record) : Prop :=
  losses E (snd (updates (rec_step r))) = Ok (rec_content_loss r, rec_style_loss r) /\
  rec_total_loss r =
    total_loss (alpha E) (beta E) (rec_content_loss r) (rec_style_loss r).

End Trajectory.

(** ** A small instance to run the loop on

    Two 1 x 1 x 1 x 2 images, a network that returns its input as the
    only feature, an optimiser that counts its steps and leaves the image
    alone, and a disk that accepts the write of step [k] iff [disk_ok k]. *)

Module Example.

Definition content_img : tensor := mkTensor [1; 1; 1; 2]%nat [1; 1].
Definition style_img : tensor := mkTensor [1; 1; 1; 2]%nat [0; 0].

Definition toy_env (steps interval : nat) (disk_ok : nat -> bool) : env nat :=
  mkEnv nat
    (fun x => Ok [x])
    (fun x => x)
    0%nat
    (fun count gen grad => (S count, gen))
    (fun gen step => if disk_ok step then Ok tt else Raise IOError)
    content_img style_img
    reference_alpha reference_beta
    steps interval.

Definition reference_env : env nat :=
  toy_env reference_total_steps reference_report_interval (fun _ => true).

End Example.

(** A network laid out like [vgg19.features]: 37 layers, the activation
    layers (the one after every convolution) working in place.  Every
    layer adds 1 to each element, so the activation of layer [k] on the
    tensor [0] is [k + 1]. *)

Module ExampleNet.

Definition add_one (x : tensor) : outcome tensor :=
  Ok (mkTensor (shape x) (map (fun q => q + 1) (data x))).

Definition activation_layers : list nat :=
  [1; 3; 6; 8; 11; 13; 15; 17; 20; 22; 24; 26; 29; 31; 33; 35]%nat.

Definition features : list VGG.layer :=
  map (fun k => VGG.mkLayer add_one (existsb (Nat.eqb k) activation_layers))
      (seq 0 37).

(** The same layers, none of them in place. *)
Definition fresh_features : list VGG.layer :=
  map (fun _ => VGG.mkLayer add_one false) (seq 0 37).

(** A network whose layer 7 refuses its input. *)
Definition broken_features : list VGG.layer :=
  map (fun k => VGG.mkLayer
                  (if (k =? 7)%nat then fun _ => Raise RuntimeError else add_one)
                  false)
      (seq 0 37).

Definition scalar (q : Q) : tensor := mkTensor [1%nat] [q].

(** The small instance of the loop, with this network as its extractor. *)
Definition vgg_env (steps interval : nat) : env nat :=
  mkEnv nat
    (VGG.forward (VGG.init features))
    (fun x => x)
    0%nat
    (fun count gen grad => (S count, gen))
    (fun gen step => Ok tt)
    Example.content_img Example.style_img
    reference_alpha reference_beta
    steps interval.

End ExampleNet.

(** An instance whose optimiser spoils the candidate: its second update
    returns a tensor of rank 1, on which the next iteration cannot unpack
    four sizes. *)

Module ExampleDrift.

Definition drifting_env (steps interval : nat) : env nat :=
  mkEnv nat
    (fun x => Ok [x])
    (fun x => x)
    0%nat
    (fun count gen grad =>
       (S count, if (count =? 1)%nat then mkTensor [2%nat] [0; 0] else gen))
    (fun gen step => Ok tt)
    Example.content_img Example.style_img
    reference_alpha reference_beta
    steps interval.

End ExampleDrift.

(** * Properties *)

(** ** Outcomes *)

Lemma bind_Ok_inv {A B : Type} (m : outcome A) (k : A -> outcome B) (b : B) :
  bind m k = Ok b -> exists a, m = Ok a /\ k a = Ok b.
Proof.
  destruct m as [a|e]; simpl; intro H; [exists a; auto | discriminate].
Qed.

Ltac inv_bind H :=
  let a := fresh "a" in
  let Ha := fresh "Ha" in
  apply bind_Ok_inv in H; destruct H as [a [Ha H]].

(** ** Sums of rationals *)

Create HintDb qsum.


Lemma Qsum_map_ext {A : Type} (f g : A -> Q) (l : list A) :
  (forall a, In a l -> f a == g a) -> Qsum (map f l) == Qsum (map g l).
Proof.
  induction l as [|a l IH]; simpl; intro H.
  - reflexivity.
  - rewrite (H a) by (left; reflexivity).
    rewrite IH by (intros b Hb; apply H; right; exact Hb).
    reflexivity.
Qed.

Lemma Qsum_nonneg (l : list Q) : Forall (fun x => 0 <= x) l -> 0 <= Qsum l.
Proof.
  induction 1 as [|x l Hx _ IH]; simpl; lra.
Qed.

Lemma Qsum_zero (l : list Q) : Forall (fun x => x == 0) l -> Qsum l == 0.
Proof.
  induction 1 as [|x l Hx _ IH]; simpl.
  - reflexivity.
  - rewrite Hx, IH. ring.
Qed.

#[export] Hint Resolve Qsum_nonneg Qsum_zero : qsum.

(** ** Row-major tables *)

Lemma length_rows (p : nat) (f : nat -> nat -> Q) (n a : nat) :
  length (flat_map (fun i => map (f i) (seq 0 p)) (seq a n)) = (n * p)%nat.
Proof.
  revert a. induction n as [|n IH]; intro a; simpl.
  - reflexivity.
  - rewrite length_app, length_map, length_seq, IH. reflexivity.
Qed.

Lemma length_tabulate (n p : nat) (f : nat -> nat -> Q) :
  length (tabulate n p f) = (n * p)%nat.
Proof. apply length_rows. Qed.

Lemma nth_rows (p : nat) (f : nat -> nat -> Q) (d : Q) (n a i j : nat) :
  (i < n)%nat -> (j < p)%nat ->
  nth (i * p + j) (flat_map (fun i => map (f i) (seq 0 p)) (seq a n)) d = f (a + i)%nat j.
Proof.
  revert a i. induction n as [|n IH]; intros a i Hi Hj; [lia|].
  simpl. destruct i as [|i].
  - simpl. rewrite app_nth1 by (rewrite length_map, length_seq; exact Hj).
    rewrite (nth_indep _ d (f a 0%nat)) by (rewrite length_map, length_seq; exact Hj).
    rewrite map_nth, seq_nth by exact Hj.
    rewrite Nat.add_0_r. reflexivity.
  - rewrite app_nth2 by (rewrite length_map, length_seq; simpl; lia).
    rewrite length_map, length_seq.
    replace (S i * p + j - p)%nat with (i * p + j)%nat by (simpl; lia).
    rewrite IH by lia.
    f_equal. lia.
Qed.

Lemma nth_tabulate (n p : nat) (f : nat -> nat -> Q) (d : Q) (i j : nat) :
  (i < n)%nat -> (j < p)%nat -> nth (i * p + j) (tabulate n p f) d = f i j.
Proof.
  intros Hi Hj. unfold tabulate. rewrite nth_rows by assumption. reflexivity.
Qed.

Lemma tabulate_Forall2 (R : Q -> Q -> Prop) (n p : nat) (f g : nat -> nat -> Q) :
  (forall i j, (i < n)%nat -> (j < p)%nat -> R (f i j) (g i j)) ->
  Forall2 R (tabulate n p f) (tabulate n p g).
Proof.
  intro H. unfold tabulate.
  assert (G : forall a m, (a + m <= n)%nat ->
            Forall2 R (flat_map (fun i => map (f i) (seq 0 p)) (seq a m))
                      (flat_map (fun i => map (g i) (seq 0 p)) (seq a m))).
  { intros a m. revert a. induction m as [|m IH]; intros a Ham; simpl.
    - constructor.
    - apply Forall2_app; [|apply IH; lia].
      assert (Hrow : forall l, (forall j, In j l -> (j < p)%nat) ->
                Forall2 R (map (f a) l) (map (g a) l)).
      { induction l as [|j l IHl]; intro Hl; simpl; constructor.
        - apply H; [lia | apply Hl; left; reflexivity].
        - apply IHl. intros j' Hj'. apply Hl. right. exact Hj'. }
      apply Hrow. intros j Hj. apply in_seq in Hj. lia. }
  apply G. lia.
Qed.


Lemma tabulate_ext (n p : nat) (f g : nat -> nat -> Q) :
  (forall i j, (i < n)%nat -> (j < p)%nat -> f i j = g i j) ->
  tabulate n p f = tabulate n p g.
Proof.
  intro H. apply (tabulate_Forall2 eq) in H.
  induction H as [|x y l1 l2 Hxy _ IH]; congruence.
Qed.

(** ** The Gram product *)

Lemma numel_of_matrix (c m : nat) : numel_of [c; m] = (c * m)%nat.
Proof. unfold numel_of. simpl. lia. Qed.

Lemma numel_of_feature (b c h w : nat) :
  numel_of [b; c; h; w] = (b * (c * (h * w)))%nat.
Proof. unfold numel_of. simpl. lia. Qed.

Lemma list_nat_eqb_refl (s : list nat) : list_nat_eqb s s = true.
Proof. unfold list_nat_eqb. destruct (list_eq_dec Nat.eq_dec s s); congruence. Qed.

Lemma list_nat_eqb_eq (s1 s2 : list nat) : list_nat_eqb s1 s2 = true -> s1 = s2.
Proof.
  unfold list_nat_eqb. destruct (list_eq_dec Nat.eq_dec s1 s2); [auto | discriminate].
Qed.

(** The product of a (c, m) matrix with its transpose, entry by entry. *)
Lemma mm_transpose (v : tensor) (c m : nat) :
  shape v = [c; m] ->
  (vt <- t v ;; mm v vt) = Ok (mkTensor [c; c] (tabulate c c (gram_entry v m))).
Proof.
  intro Hs. unfold t. rewrite Hs. simpl. unfold mm. rewrite Hs. simpl.
  rewrite Nat.eqb_refl. do 2 f_equal.
  apply tabulate_ext. intros i j Hi Hj.
  unfold gram_entry. f_equal. apply map_ext_in. intros k Hk.
  apply in_seq in Hk. f_equal.
  unfold get at 1. cbn [data]. rewrite nth_tabulate by lia. reflexivity.
Qed.

Lemma inline_gram_eq (x : tensor) (c h w : nat) :
  inline_gram x c h w =
  if (c * (h * w) =? numel x)%nat
  then Ok (mkTensor [c; c] (tabulate c c (gram_entry x (h * w))))
  else Raise RuntimeError.
Proof.
  unfold inline_gram, view. rewrite numel_of_matrix.
  destruct (c * (h * w) =? numel x)%nat; [|reflexivity].
  cbn [bind]. rewrite (mm_transpose _ c (h * w)) by reflexivity.
  reflexivity.
Qed.

Lemma gram_matrix_eq (x : tensor) (b c h w : nat) :
  shape x = [b; c; h; w] ->
  gram_matrix x =
  if (c * (h * w) =? b * (c * (h * w)))%nat
  then Ok (div_scalar (mkTensor [c; c] (tabulate c c (gram_entry x (h * w))))
             (c * h * w))
  else Raise RuntimeError.
Proof.
  intro Hs. unfold gram_matrix, size4. rewrite Hs. cbn [bind].
  unfold view, numel. rewrite Hs, numel_of_matrix, numel_of_feature.
  destruct (c * (h * w) =? b * (c * (h * w)))%nat; [|reflexivity].
  cbn [bind].
  pose proof (mm_transpose (mkTensor [c; (h * w)%nat] (data x)) c (h * w) eq_refl) as Hmm.
  unfold bind in Hmm |- *.
  destruct (t _) as [vt|e]; [|discriminate].
  rewrite Hmm. reflexivity.
Qed.

Lemma gram_matrix_batch1 (x : tensor) (c h w : nat) :
  shape x = [1%nat; c; h; w] ->
  gram_matrix x =
  Ok (div_scalar (mkTensor [c; c] (tabulate c c (gram_entry x (h * w)))) (c * h * w)).
Proof.
  intro Hs. rewrite (gram_matrix_eq x 1 c h w Hs).
  replace (1 * (c * (h * w)))%nat with (c * (h * w))%nat by lia.
  rewrite Nat.eqb_refl. reflexivity.
Qed.

Lemma gram_entry_sym (x : tensor) (m i j : nat) :
  gram_entry x m i j == gram_entry x m j i.
Proof.
  unfold gram_entry. apply Qsum_map_ext. intros k _. ring.
Qed.

Lemma nth_div_scalar (G : tensor) (n k : nat) :
  (k < length (data G))%nat ->
  get (div_scalar G n) k = get G k / inject_Z (Z.of_nat n).
Proof.
  intro Hk. unfold get, div_scalar. cbn [data].
  rewrite (nth_indep _ 0 (0 / inject_Z (Z.of_nat n))) by (rewrite length_map; exact Hk).
  apply (map_nth (fun q => q / inject_Z (Z.of_nat n))).
Qed.


(** C5: on an activation tensor (batch 1) of [c] channels with nonzero
    spatial extent, [gram_matrix] returns a [c] x [c] matrix whose entry
    (i, j) equals its entry (j, i). *)
Theorem gram_matrix_square_symmetric (x : tensor) (c h w : nat) :
  shape x = [1%nat; c; h; w] ->
  (0 < h * w)%nat ->
  exists G,
    gram_matrix x = Ok G /\
    shape G = [c; c] /\
    length (data G) = (c * c)%nat /\
    forall i j, (i < c)%nat -> (j < c)%nat ->
      get G (i * c + j) == get G (j * c + i).
Proof.
  intros Hs _. rewrite (gram_matrix_batch1 x c h w Hs).
  eexists. split; [reflexivity|]. split; [reflexivity|]. split.
  - cbn [div_scalar data]. rewrite length_map, length_tabulate. reflexivity.
  - intros i j Hi Hj.
    rewrite !nth_div_scalar by (cbn [data]; rewrite length_tabulate; nia).
    unfold get. cbn [data]. rewrite !nth_tabulate by assumption.
    rewrite (gram_entry_sym x (h * w) i j). reflexivity.
Qed.

Lemma gram_matrix_square_symmetric_witness :
  exists G,
    gram_matrix (mkTensor [1; 2; 1; 3]%nat [1; 2; 3; 4; 5; 6]) = Ok G /\
    shape G = [2; 2]%nat /\
    length (data G) = 4%nat /\
    forall i j, (i < 2)%nat -> (j < 2)%nat ->
      get G (i * 2 + j) == get G (j * 2 + i).
Proof.
  apply (gram_matrix_square_symmetric
           (mkTensor [1; 2; 1; 3]%nat [1; 2; 3; 4; 5; 6]) 2 1 3).
  - reflexivity.
  - simpl. lia.
Defined.

(** ** Spatial permutations *)






(** ** Mean squared error *)

Lemma sub_same_shape (a b : tensor) :
  shape a = shape b ->
  sub a b = Ok (mkTensor (shape a) (zip_with Qminus (data a) (data b))).
Proof.
  intro Hs. unfold sub. rewrite Hs, list_nat_eqb_refl. reflexivity.
Qed.

Lemma sub_Ok_inv (a b d : tensor) :
  sub a b = Ok d ->
  shape a = shape b /\ d = mkTensor (shape a) (zip_with Qminus (data a) (data b)).
Proof.
  unfold sub. destruct (list_nat_eqb (shape a) (shape b)) eqn:Hs; intro H.
  - split; [apply list_nat_eqb_eq; exact Hs | congruence].
  - discriminate.
Qed.

Lemma zip_with_minus_self (l : list Q) : Forall (fun q => q == 0) (zip_with Qminus l l).
Proof.
  induction l as [|q l IH]; simpl; constructor; [ring | exact IH].
Qed.

Lemma squares_nonneg (l : list Q) : Forall (fun x => 0 <= x) (map (fun q => q * q) l).
Proof.
  induction l as [|q l IH]; simpl; constructor; [nra | exact IH].
Qed.

Lemma squares_zero (l : list Q) :
  Forall (fun q => q == 0) l -> Forall (fun x => x == 0) (map (fun q => q * q) l).
Proof.
  induction 1 as [|q l Hq _ IH]; simpl; constructor; [rewrite Hq; ring | exact IH].
Qed.

#[export] Hint Resolve squares_nonneg squares_zero zip_with_minus_self : qsum.

Lemma mean_square_nonneg (d : tensor) : 0 <= mean (square d).
Proof.
  unfold mean, square. cbn [data shape].
  assert (Hs : 0 <= Qsum (map (fun q => q * q) (data d))) by auto with qsum.
  assert (Hn : 0 <= inject_Z (Z.of_nat (numel d))).
  { change 0 with (inject_Z 0). rewrite <- Zle_Qle. lia. }
  unfold Qdiv. apply Qmult_le_0_compat; [exact Hs|].
  apply Qinv_le_0_compat. exact Hn.
Qed.

Lemma mean_square_zero (d : tensor) :
  Forall (fun q => q == 0) (data d) -> mean (square d) == 0.
Proof.
  intro H. unfold mean, square. cbn [data shape].
  assert (Hs : Qsum (map (fun q => q * q) (data d)) == 0) by auto with qsum.
  rewrite Hs. unfold Qdiv. ring.
Qed.

Lemma content_loss_same_shape (a b : tensor) :
  shape a = shape b ->
  content_loss a b =
  Ok (mean (square (mkTensor (shape a) (zip_with Qminus (data a) (data b))))).
Proof.
  intro Hs. unfold content_loss. rewrite (sub_same_shape a b Hs). reflexivity.
Qed.

Lemma style_loss_batch1 (a b : tensor) (c h w h' w' : nat) :
  shape a = [1%nat; c; h; w] ->
  shape b = [1%nat; c; h'; w'] ->
  exists G A,
    gram_matrix a = Ok G /\ gram_matrix b = Ok A /\ shape G = shape A /\
    style_loss a b =
    Ok (mean (square (mkTensor (shape G) (zip_with Qminus (data G) (data A))))).
Proof.
  intros Ha Hb. unfold style_loss.
  rewrite (gram_matrix_batch1 a c h w Ha), (gram_matrix_batch1 b c h' w' Hb).
  do 2 eexists. split; [reflexivity|]. split; [reflexivity|].
  split; [reflexivity|]. cbn [bind]. rewrite sub_same_shape by reflexivity.
  reflexivity.
Qed.


(** ** When the reshape inside [gram_matrix] succeeds *)

Lemma reshape_counts (b c h w : nat) :
  (c * (h * w) = b * (c * (h * w)))%nat <-> (b = 1%nat \/ (c * h * w = 0)%nat).
Proof.
  split.
  - intro H. destruct (Nat.eq_dec (c * h * w) 0) as [Hz|Hz]; [right; exact Hz|].
    left. nia.
  - intros [-> | Hz]; [lia | nia].
Qed.

(** C10, as the code has it: on a four-dimensional input the reshape to
    (channels, height*width), and with it [gram_matrix], succeeds exactly
    when the batch dimension is 1 or the tensor has no elements per batch
    entry (channels*height*width = 0).  With batch 1 every call returns;
    with batch above 1 and channels*height*width positive the call raises
    the size-mismatch error. *)
Theorem gram_matrix_succeeds_iff (x : tensor) (b c h w : nat) :
  shape x = [b; c; h; w] ->
  ((exists G, gram_matrix x = Ok G) <-> (b = 1%nat \/ (c * h * w = 0)%nat)) /\
  (b = 1%nat -> exists G, gram_matrix x = Ok G) /\
  ((1 < b)%nat -> (0 < c * h * w)%nat -> gram_matrix x = Raise RuntimeError).
Proof.
  intro Hs. rewrite (gram_matrix_eq x b c h w Hs).
  destruct (c * (h * w) =? b * (c * (h * w)))%nat eqn:E.
  - apply Nat.eqb_eq in E. apply reshape_counts in E.
    split; [|split].
    + split; [intros _; exact E | intros _; eexists; reflexivity].
    + intros _. eexists. reflexivity.
    + intros Hb Hn. lia.
  - apply Nat.eqb_neq in E.
    assert (E' : ~ (b = 1%nat \/ (c * h * w = 0)%nat)).
    { intro H. apply E. apply reshape_counts. exact H. }
    split; [|split].
    + split; [intros [G HG]; discriminate | intro H; contradiction].
    + intro Hb. exfalso. apply E'. left. exact Hb.
    + reflexivity.
Qed.

Lemma gram_matrix_succeeds_iff_witness :
  ((exists G, gram_matrix (mkTensor [2; 1; 1; 2]%nat [1; 1; 1; 1]) = Ok G) <->
   (2%nat = 1%nat \/ (1 * 1 * 2 = 0)%nat)) /\
  (2%nat = 1%nat ->
   exists G, gram_matrix (mkTensor [2; 1; 1; 2]%nat [1; 1; 1; 1]) = Ok G) /\
  ((1 < 2)%nat -> (0 < 1 * 1 * 2)%nat ->
   gram_matrix (mkTensor [2; 1; 1; 2]%nat [1; 1; 1; 1]) = Raise RuntimeError).
Proof.
  apply (gram_matrix_succeeds_iff (mkTensor [2; 1; 1; 2]%nat [1; 1; 1; 1]) 2 1 1 2).
  reflexivity.
Defined.

(** C10, as the claim words it, fails: a well-formed input with batch 2
    and no channels is reshaped without error and [gram_matrix] returns
    the empty 0 x 0 matrix. *)
Lemma gram_matrix_batch2_returns :
  wf (mkTensor [2; 0; 3; 3]%nat []) /\
  gram_matrix (mkTensor [2; 0; 3; 3]%nat []) = Ok (mkTensor [0; 0]%nat []) /\
  ~ (forall x b c h w,
       shape x = [b; c; h; w] -> wf x -> (1 < b)%nat ->
       exists e, gram_matrix x = Raise e).
Proof.
  split; [reflexivity|]. split; [reflexivity|].
  intro H.
  destruct (H (mkTensor [2; 0; 3; 3]%nat []) 2%nat 0%nat 3%nat 3%nat
              eq_refl eq_refl (Nat.lt_succ_diag_r 1)) as [e He].
  discriminate He.
Qed.

(** A rank other than four is refused at the unpacking. *)
Lemma gram_matrix_rank (x : tensor) :
  length (shape x) <> 4%nat -> gram_matrix x = Raise ValueError.
Proof.
  intro H. unfold gram_matrix, size4.
  destruct (shape x) as [|b [|c [|h [|w [|? ?]]]]]; try reflexivity.
  exfalso. apply H. reflexivity.
Qed.

(** ** The loop's style term against [style_loss] *)

Lemma gram_matrix_inline (x : tensor) (b c h w : nat) :
  shape x = [b; c; h; w] ->
  gram_matrix x = (G <- inline_gram x c h w ;; Ok (div_scalar G (c * h * w))).
Proof.
  intro Hs. rewrite (gram_matrix_eq x b c h w Hs), inline_gram_eq.
  unfold numel. rewrite Hs, numel_of_feature.
  destruct (c * (h * w) =? b * (c * (h * w)))%nat; reflexivity.
Qed.

Lemma sum_squares_scaled (k : Q) (l1 l2 : list Q) :
  Qsum (map (fun q => q * q)
          (zip_with Qminus (map (fun q => q / k) l1) (map (fun q => q / k) l2)))
  == / k * / k * Qsum (map (fun q => q * q) (zip_with Qminus l1 l2)).
Proof.
  revert l2. induction l1 as [|a l1 IH]; intros [|b l2]; simpl; try ring.
  rewrite IH. unfold Qdiv. ring.
Qed.

(** On features of batch 1 and one shape the term the loop adds to
    [s_loss] is [style_loss] taken without the division of the Gram
    matrices: scaling it by 1 / (channels*height*width)^2 gives
    [style_loss]. *)
Lemma loop_style_term_scaling (g o s : tensor) (c h w : nat) :
  shape g = [1%nat; c; h; w] -> shape o = shape g -> shape s = shape g ->
  exists c_term s_term s_fn,
    layer_losses g o s = Ok (c_term, s_term) /\
    content_loss g o = Ok c_term /\
    style_loss g s = Ok s_fn /\
    s_fn == / inject_Z (Z.of_nat (c * h * w)) * / inject_Z (Z.of_nat (c * h * w)) * s_term.
Proof.
  intros Hg Ho Hs. rewrite Hg in Hs.
  unfold layer_losses, style_loss, content_loss, size4. rewrite Hg. cbn [bind].
  rewrite (sub_same_shape g o) by congruence. cbn [bind].
  rewrite (gram_matrix_batch1 g c h w Hg), (gram_matrix_batch1 s c h w Hs).
  rewrite !inline_gram_eq. unfold numel. rewrite Hg, Hs, numel_of_feature.
  replace (1 * (c * (h * w)))%nat with (c * (h * w))%nat by lia.
  rewrite Nat.eqb_refl. cbn [bind].
  rewrite !sub_same_shape by reflexivity. cbn [bind].
  do 3 eexists. split; [reflexivity|]. split; [reflexivity|].
  split; [reflexivity|].
  unfold mean, square, div_scalar, numel. cbn [data shape].
  rewrite sum_squares_scaled. unfold Qdiv. ring.
Qed.

(** C1: the claim does not hold of the loop.  On the features
    g = [[1, 1]] and s = [[0, 0]] (one channel, two positions) the loop
    adds 4 to [s_loss], the mean squared difference of the Gram products
    2 and 0, while [style_loss g s] is 1, because [gram_matrix] divides
    each product by channels*height*width = 2 and the loop body does
    not. *)
Theorem loop_style_term_not_style_loss :
  let g := mkTensor [1; 1; 1; 2]%nat [1; 1] in
  let s := mkTensor [1; 1; 1; 2]%nat [0; 0] in
  exists c_term s_term s_fn,
    layer_losses g g s = Ok (c_term, s_term) /\
    style_loss g s = Ok s_fn /\
    s_term == 4 /\ s_fn == 1 /\ ~ s_term == s_fn /\
    inline_gram g 1 1 2 = Ok (mkTensor [1; 1]%nat [2]) /\
    (exists G, gram_matrix g = Ok G /\ shape G = [1; 1]%nat /\ get G 0 == 1).
Proof.
  intros g s. do 3 eexists.
  split; [vm_compute; reflexivity|]. split; [vm_compute; reflexivity|].
  split; [apply Qeq_bool_iff; vm_compute; reflexivity|].
  split; [apply Qeq_bool_iff; vm_compute; reflexivity|].
  split; [intro H; apply Qeq_bool_iff in H; vm_compute in H; discriminate H|].
  split; [vm_compute; reflexivity|].
  eexists. split; [vm_compute; reflexivity|].
  split; [reflexivity | apply Qeq_bool_iff; vm_compute; reflexivity].
Qed.

(** ** Aggregation of the per-layer terms *)

Lemma accumulate_per_layer (gs os ss : list tensor) (l : list (Q * Q)) :
  per_layer gs os ss = Ok l ->
  forall c0 s0, exists c s,
    accumulate gs os ss c0 s0 = Ok (c, s) /\
    c == c0 + Qsum (map fst l) /\
    s == s0 + Qsum (map snd l).
Proof.
  revert os ss l.
  induction gs as [|g gs IH]; intros os ss l H c0 s0.
  - simpl in H. injection H as <-. exists c0, s0. simpl.
    split; [reflexivity|]. split; ring.
  - destruct os as [|o os]; [|destruct ss as [|s ss]].
    + simpl in H. injection H as <-. exists c0, s0. simpl.
      split; [reflexivity|]. split; ring.
    + simpl in H. injection H as <-. exists c0, s0. simpl.
      split; [reflexivity|]. split; ring.
    + simpl in H. inv_bind H. destruct a as [c_term s_term].
      inv_bind H. rename a into rest. injection H as <-.
      destruct (IH os ss rest Ha0 (c0 + c_term) (s0 + s_term))
        as [c [s' [Hacc [Hc Hs']]]].
      exists c, s'. simpl. rewrite Ha. cbn [bind].
      split; [exact Hacc|]. split.
      * rewrite Hc. ring.
      * rewrite Hs'. ring.
Qed.

Section Iteration.

Context {optstate : Type} (E : env optstate).

Lemma iteration_raise (step : nat) (st : loop_state optstate) (e : exn) :
  losses E (generated st) = Raise e -> iteration E step st = (st, Some e).
Proof. intro H. unfold iteration. rewrite H. reflexivity. Qed.

Lemma iteration_report (step : nat) (st : loop_state optstate) (c s : Q) :
  losses E (generated st) = Ok (c, s) ->
  report_interval E <> 0%nat ->
  (step mod report_interval E = 0)%nat ->
  let upd := optimizer_step E (optimizer st) (generated st) (backward E (generated st)) in
  let line := mkRecord step (total_steps E) c s (total_loss (alpha E) (beta E) c s) in
  iteration E step st =
  match save_image E (snd upd) step with
  | Ok _ => (mkState (snd upd) (fst upd) (stdout st ++ [line])
               (files st ++ [(step, snd upd)]), None)
  | Raise e => (mkState (snd upd) (fst upd) (stdout st ++ [line]) (files st), Some e)
  end.
Proof.
  intros Hl Hi Hm upd line. unfold iteration. rewrite Hl.
  fold upd. destruct upd as [opt' gen']. cbn [fst snd].
  apply Nat.eqb_neq in Hi. rewrite Hi.
  apply Nat.eqb_eq in Hm. rewrite Hm. reflexivity.
Qed.

(** What a body that ends without raising has done to the printed lines. *)
Lemma iteration_stdout (step : nat) (st st' : loop_state optstate) :
  iteration E step st = (st', None) ->
  report_interval E <> 0%nat /\
  map rec_step (stdout st') =
    map rec_step (stdout st) ++
    (if (step mod report_interval E =? 0)%nat then [step] else []) /\
  (Forall (fun r => rec_total_steps r = total_steps E) (stdout st) ->
   Forall (fun r => rec_total_steps r = total_steps E) (stdout st')).
Proof.
  unfold iteration.
  destruct (losses E (generated st)) as [[c s]|e]; [|intro H; discriminate H].
  destruct (optimizer_step E _ _ _) as [opt' gen'].
  destruct (report_interval E =? 0)%nat eqn:Hi; [intro H; discriminate H|].
  apply Nat.eqb_neq in Hi.
  destruct (step mod report_interval E =? 0)%nat.
  - destruct (save_image E gen' step); intro H; [|discriminate H].
    injection H as <-. cbn [stdout]. split; [exact Hi|]. split.
    + rewrite map_app. reflexivity.
    + intro HF. apply Forall_app. split; [exact HF|].
      constructor; [reflexivity | constructor].
  - intro H. injection H as <-. cbn [stdout]. split; [exact Hi|]. split.
    + rewrite app_nil_r. reflexivity.
    + auto.
Qed.

End Iteration.

(** C4: the total loss of an iteration is alpha times the plain sum of
    the per-layer content terms plus beta times the plain sum of the
    per-layer style terms; with alpha = 0 no content term enters it and
    with beta = 0 no style term does. *)
Theorem total_loss_weighted_sum {optstate : Type} (E : env optstate)
  (gen : tensor) (gs os ss : list tensor) (l : list (Q * Q)) :
  model E gen = Ok gs ->
  model E (original_img E) = Ok os ->
  model E (style_img E) = Ok ss ->
  per_layer gs os ss = Ok l ->
  exists c_loss s_loss,
    losses E gen = Ok (c_loss, s_loss) /\
    c_loss == Qsum (map fst l) /\
    s_loss == Qsum (map snd l) /\
    total_loss (alpha E) (beta E) c_loss s_loss ==
      alpha E * Qsum (map fst l) + beta E * Qsum (map snd l) /\
    (forall b c' , total_loss 0 b c_loss s_loss == total_loss 0 b c' s_loss) /\
    (forall a s', total_loss a 0 c_loss s_loss == total_loss a 0 c_loss s') /\
    (forall step st,
       generated st = gen -> report_interval E <> 0%nat ->
       (step mod report_interval E = 0)%nat ->
       stdout (fst (iteration E step st)) =
       stdout st ++ [mkRecord step (total_steps E) c_loss s_loss
                       (alpha E * c_loss + beta E * s_loss)]).
Proof.
  intros Hg Ho Hs Hl.
  destruct (accumulate_per_layer gs os ss l Hl 0 0) as [c [s [Hacc [Hc Hs']]]].
  exists c, s.
  assert (Hlosses : losses E gen = Ok (c, s)).
  { unfold losses. rewrite Hg, Ho, Hs. cbn [bind]. exact Hacc. }
  split; [exact Hlosses|].
  split; [rewrite Hc; ring|]. split; [rewrite Hs'; ring|].
  split; [unfold total_loss; rewrite Hc, Hs'; ring|].
  split; [intros; unfold total_loss; ring|].
  split; [intros; unfold total_loss; ring|].
  intros step st Hgen Hi Hm. subst gen.
  rewrite (iteration_report E step st c s Hlosses Hi Hm).
  destruct (save_image E _ step); reflexivity.
Qed.

Lemma total_loss_weighted_sum_witness :
  let E := Example.toy_env 4 2 (fun _ => true) in
  per_layer [Example.content_img] [Example.content_img] [Example.style_img]
    = Ok [(0 # 2, 4)] /\
  exists c_loss s_loss,
    losses E Example.content_img = Ok (c_loss, s_loss) /\
    total_loss (alpha E) (beta E) c_loss s_loss == 1 * (0 + 0) + (1 # 100) * (4 + 0).
Proof.
  intro E.
  assert (Hl : per_layer [Example.content_img] [Example.content_img]
                 [Example.style_img] = Ok [(0 # 2, 4)]) by (vm_compute; reflexivity).
  split; [exact Hl|].
  destruct (total_loss_weighted_sum E Example.content_img
              [Example.content_img] [Example.content_img] [Example.style_img]
              [(0 # 2, 4)] eq_refl eq_refl eq_refl Hl)
    as [c [s [H1 [_ [_ [H4 _]]]]]].
  exists c, s. split; [exact H1|].
  rewrite H4. apply Qeq_bool_iff. vm_compute. reflexivity.
Defined.

(** ** The first iteration *)

Lemma layer_losses_self (f s : tensor) :
  same_feature_shapes f s ->
  exists c_term s_term, layer_losses f f s = Ok (c_term, s_term) /\ c_term == 0.
Proof.
  intros [c [h [w [Hf Hs]]]].
  destruct (loop_style_term_scaling f f s c h w Hf eq_refl Hs)
    as [c_term [s_term [s_fn [Hl [Hc _]]]]].
  exists c_term, s_term. split; [exact Hl|].
  rewrite (content_loss_same_shape f f eq_refl) in Hc. injection Hc as <-.
  apply mean_square_zero. cbn [data]. apply zip_with_minus_self.
Qed.

Lemma accumulate_self (fs ss : list tensor) :
  Forall2 same_feature_shapes fs ss ->
  forall c0 s0, exists c s, accumulate fs fs ss c0 s0 = Ok (c, s) /\ c == c0.
Proof.
  induction 1 as [|f s fs ss Hfs _ IH]; intros c0 s0.
  - exists c0, s0. split; reflexivity.
  - destruct (layer_losses_self f s Hfs) as [c_term [s_term [Hl Hz]]].
    destruct (IH (c0 + c_term) (s0 + s_term)) as [c [s' [Hacc Hc]]].
    exists c, s'. simpl. rewrite Hl. cbn [bind].
    split; [exact Hacc|]. rewrite Hc, Hz. ring.
Qed.

(** C9: the candidate starts as a copy of the content image, so with a
    deterministic extractor its features are the content features and the
    content loss summed in the first iteration is zero; this is the value
    the record of step 0 reports. *)
Theorem step0_content_loss_zero {optstate : Type} (E : env optstate)
  (feats sfeats : list tensor) :
  model E (original_img E) = Ok feats ->
  model E (style_img E) = Ok sfeats ->
  Forall2 same_feature_shapes feats sfeats ->
  generated (initial_state E) = original_img E /\
  exists c_loss s_loss,
    losses E (generated (initial_state E)) = Ok (c_loss, s_loss) /\
    c_loss == 0 /\
    (report_interval E <> 0%nat ->
     map rec_content_loss (stdout (fst (iteration E 0 (initial_state E)))) = [c_loss]).
Proof.
  intros Hm Hs HF. split; [reflexivity|].
  destruct (accumulate_self feats sfeats HF 0 0) as [c [s [Hacc Hc]]].
  exists c, s.
  assert (Hl : losses E (generated (initial_state E)) = Ok (c, s)).
  { unfold losses. cbn [initial_state generated]. rewrite Hm, Hs. cbn [bind].
    exact Hacc. }
  split; [exact Hl|]. split; [exact Hc|].
  intro Hi.
  rewrite (iteration_report E 0 (initial_state E) c s Hl Hi)
    by (apply Nat.Div0.mod_0_l).
  destruct (save_image E _ 0%nat); reflexivity.
Qed.

Lemma step0_content_loss_zero_witness :
  let E := Example.toy_env 4 2 (fun _ => true) in
  exists c_loss s_loss,
    losses E (generated (initial_state E)) = Ok (c_loss, s_loss) /\ c_loss == 0.
Proof.
  intro E.
  assert (HF : Forall2 same_feature_shapes [Example.content_img] [Example.style_img]).
  { constructor; [|constructor].
    exists 1%nat, 1%nat, 2%nat. split; reflexivity. }
  destruct (step0_content_loss_zero E [Example.content_img] [Example.style_img]
              eq_refl eq_refl HF) as [_ [c [s [Hl [Hc _]]]]].
  exists c, s. split; [exact Hl | exact Hc].
Defined.

(** ** The loop as a machine *)

Lemma count_multiples (i n : nat) :
  i <> 0%nat ->
  length (filter (fun step => (step mod i =? 0)%nat) (seq 0 n)) =
  (n / i + (if (n mod i =? 0)%nat then 0 else 1))%nat.
Proof.
  intro Hi. induction n as [|n IH].
  - simpl. rewrite Nat.Div0.div_0_l, Nat.Div0.mod_0_l. reflexivity.
  - rewrite seq_S, filter_app, length_app, IH. cbn [filter Nat.add].
    pose proof (Nat.div_mod_eq n i) as Hn.
    pose proof (Nat.mod_upper_bound n i Hi) as Bn.
    destruct (Nat.eq_dec (S (n mod i)) i) as [Hwrap|Hwrap].
    + (* the next step is a multiple of i *)
      assert (Hd : (S n / i = S (n / i))%nat).
      { symmetry. apply (Nat.div_unique (S n) i (S (n / i)) 0); nia. }
      assert (Hm : (S n mod i = 0)%nat).
      { symmetry. apply (Nat.mod_unique (S n) i (S (n / i)) 0); nia. }
      rewrite Hd, Hm. cbn [Nat.eqb].
      destruct (n mod i =? 0)%nat; cbn [length]; lia.
    + assert (Hd : (S n / i = n / i)%nat).
      { symmetry. apply (Nat.div_unique (S n) i (n / i) (S (n mod i))); nia. }
      assert (Hm : (S n mod i = S (n mod i))%nat).
      { symmetry. apply (Nat.mod_unique (S n) i (n / i) (S (n mod i))); nia. }
      rewrite Hd, Hm. cbn [Nat.eqb].
      destruct (n mod i =? 0)%nat; cbn [length]; lia.
Qed.

Section MachineFacts.

Context {optstate : Type} (E : env optstate).

Let config : Type := (phase * loop_state optstate)%type.

Lemma trace_head (fuel : nat) (c : config) :
  exists tl, trace E fuel c = c :: tl.
Proof. destruct fuel; simpl; eexists; reflexivity. Qed.

Lemma last_trace_step (fuel : nat) (c c' d : config) :
  last (c :: trace E fuel c') d = last (trace E fuel c') d.
Proof. destruct (trace_head fuel c') as [tl ->]. reflexivity. Qed.

Lemma trace_terminal (fuel : nat) (c : config) :
  is_terminal (fst c) = true -> trace E fuel c = [c].
Proof.
  intro H. destruct c as [p st]. destruct fuel; [reflexivity|].
  simpl. unfold next. cbn [fst]. destruct p; try discriminate H; reflexivity.
Qed.

Lemma trace_running (fuel step : nat) (st : loop_state optstate) :
  trace E (S fuel) (Running step, st) =
  (Running step, st) ::
  match iteration E step st with
  | (st', None) => trace E fuel (after E step, st')
  | (st', Some e) => [(Aborted e, st')]
  end.
Proof.
  simpl. unfold next. cbn [fst snd].
  destruct (iteration E step st) as [st' [e|]]; [|reflexivity].
  rewrite trace_terminal by reflexivity. reflexivity.
Qed.

(** From [Running k] with [m] steps left: the run ends in a terminal
    phase, and when that phase is [Completed] the steps printed are the
    reporting steps among the remaining ones and [Completed] was entered
    once. *)
Lemma running_reaches_terminal (m : nat) :
  forall (k fuel : nat) (st : loop_state optstate) (d : config),
    (k + S m = total_steps E)%nat -> (S m <= fuel)%nat ->
    let fin := last (trace E fuel (Running k, st)) d in
    is_terminal (fst fin) = true /\
    (fst fin = Completed ->
     report_interval E <> 0%nat /\
     map rec_step (stdout (snd fin)) =
       map rec_step (stdout st) ++
       filter (fun step => (step mod report_interval E =? 0)%nat) (seq k (S m)) /\
     (Forall (fun r => rec_total_steps r = total_steps E) (stdout st) ->
      Forall (fun r => rec_total_steps r = total_steps E) (stdout (snd fin))) /\
     completions (trace E fuel (Running k, st)) = 1%nat).
Proof.
  induction m as [|m IH]; intros k fuel st d Hk Hfuel;
    (destruct fuel as [|fuel]; [lia|]); rewrite trace_running;
    destruct (iteration E k st) as [st' [e|]] eqn:Hit;
    try (cbn [last fst]; split; [reflexivity | intro H; discriminate H]).
  - (* last step *)
    assert (Haft : after E k = Completed).
    { unfold after. replace (S k <? total_steps E)%nat with false; [reflexivity|].
      symmetry. apply Nat.ltb_ge. lia. }
    rewrite Haft, trace_terminal by reflexivity.
    cbn [last fst snd]. split; [reflexivity|]. intros _.
    destruct (iteration_stdout E k st st' Hit) as [Hi [Hout HF]].
    split; [exact Hi|]. split; [|split].
    + rewrite Hout. cbn [seq filter].
      destruct (k mod report_interval E =? 0)%nat; reflexivity.
    + exact HF.
    + reflexivity.
  - (* a step that is followed by another *)
    assert (Haft : after E k = Running (S k)).
    { unfold after. replace (S k <? total_steps E)%nat with true; [reflexivity|].
      symmetry. apply Nat.ltb_lt. lia. }
    rewrite Haft, last_trace_step.
    destruct (IH (S k) fuel st' d ltac:(lia) ltac:(lia)) as [Hterm Hcomp].
    split; [exact Hterm|]. intro Hfin.
    destruct (Hcomp Hfin) as [Hi [Hout [HF Hcount]]].
    destruct (iteration_stdout E k st st' Hit) as [_ [Hout' HF']].
    split; [exact Hi|]. split; [|split].
    + rewrite Hout, Hout', <- app_assoc. f_equal.
      change (seq k (S (S m))) with (k :: seq (S k) (S m)). cbn [filter].
      destruct (k mod report_interval E =? 0)%nat; reflexivity.
    + intro H. apply HF, HF', H.
    + unfold completions in *. cbn [filter fst is_completed]. exact Hcount.
Qed.

End MachineFacts.

Section Run.

Context {optstate : Type} (E : env optstate).

(** The machine and the [for] loop end in the same state, and the machine
    ends in [Completed] exactly when the loop raised nothing. *)
Lemma for_range_running (m : nat) :
  forall (k fuel : nat) (st : loop_state optstate) (d : phase * loop_state optstate),
    (k + S m = total_steps E)%nat -> (S m <= fuel)%nat ->
    last (trace E fuel (Running k, st)) d =
    (match snd (for_range E (seq k (S m)) st) with
     | None => Completed
     | Some e => Aborted e
     end, fst (for_range E (seq k (S m)) st)).
Proof.
  induction m as [|m IH]; intros k fuel st d Hk Hfuel;
    (destruct fuel as [|fuel]; [lia|]); rewrite trace_running;
    cbn [seq for_range];
    destruct (iteration E k st) as [st' [e|]] eqn:Hit; try reflexivity.
  - unfold after. replace (S k <? total_steps E)%nat with false
      by (symmetry; apply Nat.ltb_ge; lia).
    rewrite trace_terminal by reflexivity. reflexivity.
  - unfold after. replace (S k <? total_steps E)%nat with true
      by (symmetry; apply Nat.ltb_lt; lia).
    rewrite last_trace_step. apply (IH (S k) fuel st' d); lia.
Qed.

Lemma final_run :
  final E =
  (match snd (run E) with None => Completed | Some e => Aborted e end, fst (run E)).
Proof.
  unfold final, run, run_trace. cbn [trace next fst snd].
  destruct (total_steps E) as [|m] eqn:Hn.
  - reflexivity.
  - cbn [Nat.ltb Nat.leb]. rewrite last_trace_step.
    apply (for_range_running m 0 (S m)); lia.
Qed.

(** A sufficient condition for completion: an invariant of the loop state
    under which no iteration raises. *)
Section Invariant.

Variable Inv : loop_state optstate -> Prop.

Hypothesis Inv_step :
  forall step st, Inv st -> (step < total_steps E)%nat ->
    exists st', iteration E step st = (st', None) /\ Inv st'.

Lemma for_range_invariant (m : nat) :
  forall (k : nat) (st : loop_state optstate),
    (k + m <= total_steps E)%nat -> Inv st ->
    snd (for_range E (seq k m) st) = None /\ Inv (fst (for_range E (seq k m) st)).
Proof.
  induction m as [|m IH]; intros k st Hk Hst.
  - split; [reflexivity | exact Hst].
  - cbn [seq for_range].
    destruct (Inv_step k st Hst ltac:(lia)) as [st' [Hit Hst']].
    rewrite Hit. apply IH; [lia | exact Hst'].
Qed.

Lemma run_completes :
  Inv (initial_state E) -> fst (final E) = Completed /\ Inv (snd (final E)).
Proof.
  intro H0. rewrite final_run. cbn [fst snd]. unfold run.
  destruct (for_range_invariant (total_steps E) 0 (initial_state E) ltac:(lia) H0)
    as [Hnone Hinv].
  rewrite Hnone. split; [reflexivity | exact Hinv].
Qed.

End Invariant.

End Run.

(** The small instance keeps its candidate equal to the content image, so
    with a disk that accepts every write its run completes for any number
    of steps. *)
Lemma toy_env_completes (steps interval : nat) :
  interval <> 0%nat ->
  fst (final (Example.toy_env steps interval (fun _ => true))) = Completed.
Proof.
  intro Hi. set (E := Example.toy_env steps interval (fun _ => true)).
  apply (run_completes E (fun st => generated st = Example.content_img)).
  - intros step st Hst _. unfold iteration. rewrite Hst.
    replace (losses E Example.content_img) with (@Ok (Q * Q) (0 # 2, 4))
      by (vm_compute; reflexivity).
    cbn [optimizer_step report_interval save_image E Example.toy_env].
    apply Nat.eqb_neq in Hi. rewrite Hi.
    destruct (step mod interval =? 0)%nat; eexists; split; reflexivity.
  - reflexivity.
Qed.

(** C2, as the code has it: the run always ends, in [Completed] or in
    [Aborted]; when it ends in [Completed] it entered that phase once and
    printed one record for every step of [range(total_steps)] that is a
    multiple of the report interval, step 0 among them.  That makes
    floor(total_steps / report_interval) records when the interval
    divides total_steps (50 for the reference values 10000 and 200) and
    one more otherwise; the record of step 0 is counted in these, not
    added to them.  Every record holds the step, total_steps and the
    three losses. *)
Theorem loop_report_count {optstate : Type} (E : env optstate) :
  is_terminal (fst (final E)) = true /\
  (fst (final E) = Completed ->
   snd (run E) = None /\
   completions (run_trace E) = 1%nat /\
   map rec_step (stdout (snd (final E))) = report_steps E /\
   length (stdout (snd (final E))) =
     (total_steps E / report_interval E +
      (if (total_steps E mod report_interval E =? 0)%nat then 0 else 1))%nat /\
   Forall (fun r => rec_total_steps r = total_steps E) (stdout (snd (final E))) /\
   (total_steps E = reference_total_steps ->
    report_interval E = reference_report_interval ->
    length (stdout (snd (final E))) = 50%nat)).
Proof.
  assert (Hmain :
    is_terminal (fst (final E)) = true /\
    (fst (final E) = Completed ->
     completions (run_trace E) = 1%nat /\
     map rec_step (stdout (snd (final E))) = report_steps E /\
     Forall (fun r => rec_total_steps r = total_steps E) (stdout (snd (final E))) /\
     (total_steps E <> 0%nat -> report_interval E <> 0%nat))).
  { unfold final, run_trace, report_steps. cbn [trace next fst snd].
    destruct (total_steps E) as [|m] eqn:Hn.
    - cbn. split; [reflexivity|]. intros _.
      split; [reflexivity|]. split; [reflexivity|].
      split; [constructor | intro H; contradiction].
    - cbn [Nat.ltb Nat.leb]. rewrite last_trace_step.
      destruct (running_reaches_terminal E m 0 (S m) (initial_state E)
                  (Initialized, initial_state E) ltac:(lia) ltac:(lia))
        as [Hterm Hcomp].
      split; [exact Hterm|]. intro Hfin.
      destruct (Hcomp Hfin) as [Hi [Hout [HF Hcount]]].
      split; [|split; [|split]].
      + unfold completions in *. cbn [filter fst is_completed]. exact Hcount.
      + rewrite Hout. reflexivity.
      + rewrite Hn in HF. apply HF. constructor.
      + intros _. exact Hi. }
  destruct Hmain as [Hterm Hcomp]. split; [exact Hterm|]. intro Hfin.
  destruct (Hcomp Hfin) as [Hcount [Hout [HF Hi]]].
  assert (Hlen : length (stdout (snd (final E))) =
                 (total_steps E / report_interval E +
                  (if (total_steps E mod report_interval E =? 0)%nat then 0 else 1))%nat).
  { rewrite <- (length_map rec_step), Hout. unfold report_steps.
    destruct (Nat.eq_dec (total_steps E) 0) as [Hz|Hz].
    - rewrite Hz. rewrite Nat.Div0.div_0_l, Nat.Div0.mod_0_l. reflexivity.
    - apply count_multiples. apply Hi. exact Hz. }
  split.
  { rewrite final_run in Hfin. cbn [fst] in Hfin.
    destruct (snd (run E)); [discriminate Hfin | reflexivity]. }
  split; [exact Hcount|]. split; [exact Hout|]. split; [exact Hlen|].
  split; [exact HF|].
  intros Ht Hr. rewrite Hlen, Ht, Hr. vm_compute. reflexivity.
Qed.

Lemma loop_report_count_witness :
  let E := Example.toy_env 5 2 (fun _ => true) in
  fst (final E) = Completed /\
  completions (run_trace E) = 1%nat /\
  map rec_step (stdout (snd (final E))) = [0; 2; 4]%nat /\
  length (stdout (snd (final E))) = (5 / 2 + 1)%nat.
Proof.
  intro E.
  assert (Hfin : fst (final E) = Completed) by (vm_compute; reflexivity).
  split; [exact Hfin|].
  destruct (proj2 (loop_report_count E) Hfin) as [_ [Hc [Hs [Hl _]]]].
  split; [exact Hc|]. split; [exact Hs | exact Hl].
Defined.

(** C2, as the claim words it, fails at the reference values: the run of
    10000 steps reporting every 200 completes with 50 records, the first
    of them the one of step 0, and not with 10000 / 200 + 1 = 51. *)
Lemma reference_run_prints_50 :
  let E := Example.reference_env in
  total_steps E = 10000%nat /\ report_interval E = 200%nat /\
  fst (final E) = Completed /\
  length (stdout (snd (final E))) = 50%nat /\
  hd_error (map rec_step (stdout (snd (final E)))) = Some 0%nat /\
  length (stdout (snd (final E))) <>
    (total_steps E / report_interval E + 1)%nat.
Proof.
  intro E.
  assert (Hlen : length (stdout (snd (final E))) = 50%nat) by (vm_compute; reflexivity).
  split; [reflexivity|]. split; [reflexivity|].
  split; [vm_compute; reflexivity|]. split; [exact Hlen|].
  split; [vm_compute; reflexivity|].
  rewrite Hlen. vm_compute. intro H. discriminate H.
Qed.

(** C3, as the code has it: [save_image] is called with nothing around it
    to catch an exception.  When the write of a reporting step raises,
    the body raises, the [for] loop stops there whatever steps remain,
    and the machine moves to [Aborted], from which nothing follows.  The
    candidate is the tensor the optimiser step of that iteration
    produced: the failed write does not change it. *)
Theorem checkpoint_failure_propagates {optstate : Type} (E : env optstate)
  (step : nat) (st : loop_state optstate) (c_loss s_loss : Q) (e : exn) :
  losses E (generated st) = Ok (c_loss, s_loss) ->
  report_interval E <> 0%nat ->
  (step mod report_interval E = 0)%nat ->
  let upd := optimizer_step E (optimizer st) (generated st) (backward E (generated st)) in
  save_image E (snd upd) step = Raise e ->
  exists st',
    iteration E step st = (st', Some e) /\
    generated st' = snd upd /\
    files st' = files st /\
    (forall rest, for_range E (step :: rest) st = (st', Some e)) /\
    (forall fuel, trace E (S fuel) (Running step, st) =
                  [(Running step, st); (Aborted e, st')]) /\
    next E (Aborted e, st') = None.
Proof.
  intros Hl Hi Hm upd Hsave.
  pose proof (iteration_report E step st c_loss s_loss Hl Hi Hm) as Hit.
  cbn zeta in Hit. fold upd in Hit. rewrite Hsave in Hit.
  eexists. split; [exact Hit|].
  split; [reflexivity|]. split; [reflexivity|].
  split; [|split].
  - intro rest. cbn [for_range]. rewrite Hit. reflexivity.
  - intro fuel. rewrite trace_running, Hit. reflexivity.
  - reflexivity.
Qed.

Lemma checkpoint_failure_propagates_witness :
  let E := Example.toy_env 5 2 (fun step => negb (step =? 2)%nat) in
  let st := mkState Example.content_img 2%nat [] [] in
  exists st',
    iteration E 2 st = (st', Some IOError) /\
    generated st' = Example.content_img /\
    next E (Aborted IOError, st') = None.
Proof.
  intros E st.
  destruct (checkpoint_failure_propagates E 2 st (0 # 2) 4 IOError)
    as [st' [Hit [Hgen [_ [_ [_ Hnext]]]]]].
  - vm_compute. reflexivity.
  - vm_compute. intro H. discriminate H.
  - reflexivity.
  - reflexivity.
  - exists st'. split; [exact Hit|]. split; [exact Hgen | exact Hnext].
Defined.

(** C3, as the claim words it, fails: with a disk that refuses the write
    of step 2, the run of 5 steps ends in [Aborted IOError] after the
    steps 0, 1 and 2; the steps 3 and 4 never run, [Completed] is never
    entered and the loop hands the exception to its caller. *)
Lemma failed_write_aborts_run :
  let E := Example.toy_env 5 2 (fun step => negb (step =? 2)%nat) in
  map fst (run_trace E) =
    [Initialized; Running 0; Running 1; Running 2; Aborted IOError] /\
  snd (run E) = Some IOError /\
  completions (run_trace E) = 0%nat /\
  fst (final E) <> Completed.
Proof.
  intro E.
  split; [vm_compute; reflexivity|]. split; [vm_compute; reflexivity|].
  split; [vm_compute; reflexivity|].
  vm_compute. intro H. discriminate H.
Qed.

(** * The feature extractor *)

Section Heap.

Lemma length_store (h : VGG.heap) (r : nat) (v : tensor) :
  length (VGG.store h r v) = length h.
Proof.
  revert r. induction h as [|u h IH]; intros [|r]; simpl; auto.
Qed.

Lemma deref_store_same (h : VGG.heap) (r : nat) (v : tensor) :
  (r < length h)%nat -> VGG.deref (VGG.store h r v) r = v.
Proof.
  unfold VGG.deref. revert r.
  induction h as [|u h IH]; intros [|r] Hr; simpl in *; try lia; auto.
  apply IH. lia.
Qed.

Lemma deref_store_other (h : VGG.heap) (r r' : nat) (v : tensor) :
  r' <> r -> VGG.deref (VGG.store h r v) r' = VGG.deref h r'.
Proof.
  unfold VGG.deref. revert r r'.
  induction h as [|u h IH]; intros [|r] [|r'] Hneq; simpl; auto; try congruence.
Qed.

Lemma deref_alloc_new (h : VGG.heap) (v : tensor) :
  VGG.deref (h ++ [v]) (length h) = v.
Proof.
  unfold VGG.deref. rewrite app_nth2 by lia. rewrite Nat.sub_diag. reflexivity.
Qed.

Lemma deref_alloc_old (h : VGG.heap) (v : tensor) (r : nat) :
  (r < length h)%nat -> VGG.deref (h ++ [v]) r = VGG.deref h r.
Proof.
  intro Hr. unfold VGG.deref. apply app_nth1. exact Hr.
Qed.

End Heap.

Lemma activations_length (layers : list VGG.layer) :
  forall v acts, VGG.activations layers v = Ok acts -> length acts = length layers.
Proof.
  induction layers as [|l rest IH]; intros v acts H; simpl in H.
  - injection H as <-. reflexivity.
  - inv_bind H. rename a into y. inv_bind H. rename a into acts'.
    injection H as <-. simpl. f_equal. exact (IH y acts' Ha0).
Qed.

(** The loop over the heap against the activations: which objects it
    leaves alone, what the current object ends up holding, and what the
    references it appended point to. *)
Lemma forward_loop_spec (self : VGG.vgg) (layers : list VGG.layer) :
  forall (n : nat) (h : VGG.heap) (x : nat) (feats : list nat),
    (x < length h)%nat ->
    match VGG.activations layers (VGG.deref h x) with
    | Raise e => VGG.forward_loop self n layers h x feats = Raise e
    | Ok acts =>
        exists h' news,
          VGG.forward_loop self n layers h x feats = Ok (h', feats ++ news) /\
          (length h <= length h')%nat /\
          (forall r, (r < length h)%nat -> r <> x -> VGG.deref h' r = VGG.deref h r) /\
          VGG.deref h' x =
            nth (VGG.run_length layers) (VGG.deref h x :: acts) (mkTensor [] []) /\
          map (VGG.deref h') news = VGG.feature_values self n layers acts
    end.
Proof.
  induction layers as [|l rest IH]; intros n h x feats Hx.
  - cbn [VGG.activations]. exists h, []. rewrite app_nil_r.
    repeat split; auto.
  - cbn [VGG.activations VGG.forward_loop].
    destruct (VGG.apply l (VGG.deref h x)) as [y|e]; [|reflexivity].
    cbn [bind]. destruct (VGG.in_place l) eqn:Hin.
    + (* the layer writes into the object [x] *)
      specialize (IH (S n) (VGG.store h x y) x
                    (if VGG.chosen self n then feats ++ [x] else feats)).
      rewrite length_store, deref_store_same in IH by exact Hx.
      specialize (IH Hx).
      destruct (VGG.activations rest y) as [acts|e]; [|exact IH].
      destruct IH as [h' [news [Hloop [Hlen [Hold [Hcur Hnew]]]]]].
      cbn [bind VGG.run_length VGG.feature_values]. rewrite Hin.
      exists h', ((if VGG.chosen self n then [x] else []) ++ news).
      split; [|split; [|split; [|split]]].
      * rewrite Hloop. destruct (VGG.chosen self n);
          rewrite <- ?app_assoc; reflexivity.
      * exact Hlen.
      * intros r Hr Hneq. rewrite Hold by assumption.
        apply deref_store_other. exact Hneq.
      * exact Hcur.
      * rewrite map_app, Hnew. destruct (VGG.chosen self n); [|reflexivity].
        cbn [map app]. rewrite Hcur. reflexivity.
    + (* the layer returns a new object *)
      specialize (IH (S n) (h ++ [y]) (length h)
                    (if VGG.chosen self n then feats ++ [length h] else feats)).
      rewrite length_app, deref_alloc_new in IH. cbn [length] in IH.
      specialize (IH ltac:(lia)).
      destruct (VGG.activations rest y) as [acts|e]; [|exact IH].
      destruct IH as [h' [news [Hloop [Hlen [Hold [Hcur Hnew]]]]]].
      cbn [bind VGG.run_length VGG.feature_values]. rewrite Hin.
      exists h', ((if VGG.chosen self n then [length h] else []) ++ news).
      split; [|split; [|split; [|split]]].
      * rewrite Hloop. destruct (VGG.chosen self n);
          rewrite <- ?app_assoc; reflexivity.
      * lia.
      * intros r Hr Hneq. rewrite Hold by lia.
        apply deref_alloc_old. exact Hr.
      * rewrite Hold by lia. rewrite deref_alloc_old by exact Hx. reflexivity.
      * rewrite map_app, Hnew. destruct (VGG.chosen self n); [|reflexivity].
        cbn [map app]. rewrite Hcur. reflexivity.
Qed.

(** [VGG.forward] computed without the heap. *)
Lemma forward_eq_feature_values (self : VGG.vgg) (x : tensor) :
  VGG.forward self x =
  (acts <- VGG.activations (VGG.model self) x ;;
   Ok (VGG.feature_values self 0 (VGG.model self) acts)).
Proof.
  unfold VGG.forward.
  pose proof (forward_loop_spec self (VGG.model self) 0 [x] 0 []
                (Nat.lt_0_succ 0)) as H.
  change (VGG.deref [x] 0) with x in H.
  destruct (VGG.activations (VGG.model self) x) as [acts|e].
  - destruct H as [h' [news [Hloop [_ [_ [_ Hnew]]]]]].
    rewrite Hloop. cbn [bind app]. rewrite Hnew. reflexivity.
  - rewrite H. reflexivity.
Qed.

(** X1: [VGG.forward] raises exactly when a layer raises, with that
    exception; otherwise it returns, for every chosen layer in order, the
    activation that stands after the in-place layers following it. *)
Theorem forward_returns_settled_activations (self : VGG.vgg) (x : tensor) :
  VGG.forward self x =
  (acts <- VGG.activations (VGG.model self) x ;;
   Ok (VGG.feature_values self 0 (VGG.model self) acts)).
Proof.
  unfold VGG.forward.
  pose proof (forward_loop_spec self (VGG.model self) 0 [x] 0 []
                (Nat.lt_0_succ 0)) as Hloop.
  change (VGG.deref [x] 0) with x in Hloop.
  destruct (VGG.activations (VGG.model self) x) as [acts|e].
  - destruct Hloop as [h' [news [Hrun [_ [_ [_ Hvalues]]]]]].
    rewrite Hrun. cbn [bind app]. rewrite Hvalues. reflexivity.
  - rewrite Hloop. reflexivity.
Qed.

Lemma filter_map_S (f : nat -> bool) (l : list nat) :
  filter f (map S l) = map S (filter (fun k => f (S k)) l).
Proof.
  induction l as [|k l IH]; simpl; [reflexivity|].
  destruct (f (S k)); simpl; rewrite IH; reflexivity.
Qed.

(** The returned tensors by position in the list of activations. *)
Lemma feature_values_nth (self : VGG.vgg) (layers : list VGG.layer) :
  forall (acts : list tensor) (n : nat),
    length acts = length layers ->
    VGG.feature_values self n layers acts =
    map (fun k => nth (k + VGG.run_length (skipn (S k) layers)) acts (mkTensor [] []))
        (filter (fun k => VGG.chosen self (n + k)) (seq 0 (length layers))).
Proof.
  induction layers as [|l rest IH]; intros acts n Hlen.
  - destruct acts; reflexivity.
  - destruct acts as [|y acts']; [discriminate Hlen|].
    injection Hlen as Hlen.
    cbn [VGG.feature_values length]. rewrite (IH acts' (S n) Hlen).
    rewrite <- cons_seq, <- seq_shift. cbn [filter].
    rewrite Nat.add_0_r, filter_map_S.
    assert (Htail :
      map (fun k => nth (k + VGG.run_length (skipn (S k) (l :: rest))) (y :: acts')
                      (mkTensor [] []))
          (map S (filter (fun k => VGG.chosen self (n + S k)) (seq 0 (length rest)))) =
      map (fun k => nth (k + VGG.run_length (skipn (S k) rest)) acts' (mkTensor [] []))
          (filter (fun k => VGG.chosen self (S n + k)) (seq 0 (length rest)))).
    { rewrite map_map. f_equal.
      apply filter_ext. intro k. f_equal. lia. }
    destruct (VGG.chosen self n); cbn [map app]; rewrite Htail; reflexivity.
Qed.

Lemma chosen_init (features : list VGG.layer) (n : nat) :
  VGG.chosen (VGG.init features) n = VGG.chosen (VGG.init []) n.
Proof. reflexivity. Qed.

(** Which layer numbers below [m <= 29] have their decimal string among
    the chosen ones. *)
Lemma chosen_layer_numbers (m : nat) :
  (m <= 29)%nat ->
  filter (fun k => VGG.chosen (VGG.init []) (0 + k)) (seq 0 m) =
  filter (fun k => (k <? m)%nat) [0; 5; 10; 19; 28]%nat.
Proof.
  intro Hm.
  do 30 (destruct m as [|m]; [vm_compute; reflexivity|]).
  lia.
Qed.

Lemma forward_init_inv (features : list VGG.layer) (x : tensor) (fs : list tensor) :
  VGG.forward (VGG.init features) x = Ok fs ->
  exists acts,
    VGG.activations (firstn 29 features) x = Ok acts /\
    length acts = Nat.min 29 (length features) /\
    fs = map (fun k => nth (k + VGG.run_length (skipn (S k) (firstn 29 features)))
                         acts (mkTensor [] []))
             (filter (fun k => (k <? Nat.min 29 (length features))%nat)
                     [0; 5; 10; 19; 28]%nat).
Proof.
  intro H. rewrite forward_eq_feature_values in H.
  cbn [VGG.model VGG.init] in H. inv_bind H. rename a into acts.
  injection H as <-.
  pose proof (activations_length _ _ _ Ha) as Hlen.
  exists acts. split; [exact Ha|]. split.
  - rewrite Hlen. apply length_firstn.
  - rewrite (feature_values_nth _ _ acts 0 Hlen).
    rewrite length_firstn.
    rewrite (filter_ext _ (fun k => VGG.chosen (VGG.init []) (0 + k)))
      by (intro k; apply chosen_init).
    rewrite chosen_layer_numbers by lia. reflexivity.
Qed.

(** X2: [VGG.forward] returns one tensor for every chosen layer number
    the network has: five for a network of at least 29 layers, fewer for
    a shorter one, none for an empty one. *)
Theorem forward_feature_count (features : list VGG.layer) (x : tensor)
  (fs : list tensor) :
  VGG.forward (VGG.init features) x = Ok fs ->
  length fs =
    length (filter (fun k => (k <? length features)%nat) [0; 5; 10; 19; 28]%nat) /\
  ((29 <= length features)%nat -> length fs = 5%nat) /\
  (features = [] -> fs = []).
Proof.
  intro H. destruct (forward_init_inv features x fs H) as [acts [_ [_ Hfs]]].
  assert (Hcount : length fs =
    length (filter (fun k => (k <? length features)%nat) [0; 5; 10; 19; 28]%nat)).
  { rewrite Hfs, length_map. f_equal. cbn [filter].
    repeat match goal with
    | |- context [(?k <? Nat.min 29 ?n)%nat] =>
        replace (k <? Nat.min 29 n)%nat with (k <? n)%nat
          by (destruct (Nat.ltb_spec k n), (Nat.ltb_spec k (Nat.min 29 n));
              try reflexivity; lia)
    end.
    reflexivity. }
  split; [exact Hcount|]. split.
  - intro Hlen. rewrite Hcount. cbn [filter].
    repeat match goal with
    | |- context [(?k <? length features)%nat] =>
        replace (k <? length features)%nat with true
          by (symmetry; apply Nat.ltb_lt; lia)
    end.
    reflexivity.
  - intros ->. rewrite Hfs. reflexivity.
Qed.

Lemma skipn_cons_nth {A : Type} (l : list A) (d : A) :
  forall j, (j < length l)%nat -> skipn j l = nth j l d :: skipn (S j) l.
Proof.
  induction l as [|a l IH]; intros [|j] Hj; simpl in *; try lia; auto.
  apply IH. lia.
Qed.

Lemma run_length_fresh_head (layers : list VGG.layer) (d : VGG.layer) (j : nat) :
  (j < length layers)%nat ->
  VGG.in_place (nth j layers d) = false ->
  VGG.run_length (skipn j layers) = 0%nat.
Proof.
  intros Hj Hf. rewrite (skipn_cons_nth layers d j Hj).
  cbn [VGG.run_length]. rewrite Hf. reflexivity.
Qed.

Lemma run_length_one (layers : list VGG.layer) (d : VGG.layer) (j : nat) :
  (S j < length layers)%nat ->
  VGG.in_place (nth j layers d) = true ->
  VGG.in_place (nth (S j) layers d) = false ->
  VGG.run_length (skipn j layers) = 1%nat.
Proof.
  intros Hj Ht Hf. rewrite (skipn_cons_nth layers d j) by lia.
  cbn [VGG.run_length]. rewrite Ht.
  rewrite (run_length_fresh_head layers d (S j) Hj Hf). reflexivity.
Qed.

Lemma run_length_end (layers : list VGG.layer) (j : nat) :
  (length layers <= j)%nat -> VGG.run_length (skipn j layers) = 0%nat.
Proof. intro Hj. rewrite skipn_all2 by exact Hj. reflexivity. Qed.

Lemma nth_firstn_29 (features : list VGG.layer) (d : VGG.layer) (j : nat) :
  (j < 29)%nat -> nth j (firstn 29 features) d = nth j features d.
Proof.
  intro Hj. rewrite nth_firstn.
  replace (j <? 29)%nat with true by (symmetry; apply Nat.ltb_lt; exact Hj).
  reflexivity.
Qed.

Lemma chosen_below_29 (n : nat) :
  (29 <= n)%nat ->
  filter (fun k => (k <? Nat.min 29 n)%nat) [0; 5; 10; 19; 28]%nat =
  [0; 5; 10; 19; 28]%nat.
Proof.
  intro Hn. replace (Nat.min 29 n) with 29%nat by lia. reflexivity.
Qed.

(** X3: when none of the first 29 layers works in place, the five
    tensors [VGG.forward] returns are the activations of the layers 0, 5,
    10, 19 and 28, in this order. *)
Theorem forward_fresh_layers (features : list VGG.layer) (x : tensor)
  (fs : list tensor) :
  (29 <= length features)%nat ->
  (forall j, (j < 29)%nat ->
     VGG.in_place (nth j features (VGG.mkLayer Ok false)) = false) ->
  VGG.forward (VGG.init features) x = Ok fs ->
  exists acts,
    VGG.activations (firstn 29 features) x = Ok acts /\
    fs = map (fun k => nth k acts (mkTensor [] [])) [0; 5; 10; 19; 28]%nat.
Proof.
  intros Hlen Hfresh H.
  destruct (forward_init_inv features x fs H) as [acts [Hacts [_ Hfs]]].
  exists acts. split; [exact Hacts|].
  rewrite Hfs, chosen_below_29 by exact Hlen.
  assert (HL : length (firstn 29 features) = 29%nat)
    by (rewrite length_firstn; lia).
  set (dl := VGG.mkLayer Ok false) in *.
  assert (Hrun : forall j, (j < 28)%nat ->
            VGG.run_length (skipn (S j) (firstn 29 features)) = 0%nat).
  { intros j Hj. apply (run_length_fresh_head _ dl); [lia|].
    rewrite nth_firstn_29 by lia. apply Hfresh. lia. }
  cbn [map].
  rewrite !Hrun by lia.
  rewrite (run_length_end (firstn 29 features) 29) by lia.
  rewrite !Nat.add_0_r. reflexivity.
Qed.

(** X4: when the layers 1, 6, 11 and 20 (the activation layers behind
    the first four chosen ones) work in place and the layers 2, 7, 12 and
    21 do not, [VGG.forward] returns the activations of the layers 1, 6,
    11, 20 and 28: the first four tensors are what the activation layer
    made of the chosen layer's output, and only the last one, whose
    activation layer the cut at 29 removes, is the chosen layer's own
    output. *)
Theorem forward_in_place_activations (features : list VGG.layer) (x : tensor)
  (fs : list tensor) :
  (29 <= length features)%nat ->
  (forall k, In k [0; 5; 10; 19]%nat ->
     VGG.in_place (nth (S k) features (VGG.mkLayer Ok false)) = true /\
     VGG.in_place (nth (S (S k)) features (VGG.mkLayer Ok false)) = false) ->
  VGG.forward (VGG.init features) x = Ok fs ->
  exists acts,
    VGG.activations (firstn 29 features) x = Ok acts /\
    fs = map (fun k => nth k acts (mkTensor [] [])) [1; 6; 11; 20; 28]%nat.
Proof.
  intros Hlen Hflags H.
  destruct (forward_init_inv features x fs H) as [acts [Hacts [_ Hfs]]].
  exists acts. split; [exact Hacts|].
  rewrite Hfs, chosen_below_29 by exact Hlen.
  assert (HL : length (firstn 29 features) = 29%nat)
    by (rewrite length_firstn; lia).
  set (dl := VGG.mkLayer Ok false) in *.
  assert (Hrun : forall k, In k [0; 5; 10; 19]%nat ->
            VGG.run_length (skipn (S k) (firstn 29 features)) = 1%nat).
  { intros k Hk. destruct (Hflags k Hk) as [Ht Hf].
    assert (Hk' : (k <= 19)%nat) by (cbn [In] in Hk; lia).
    apply (run_length_one _ dl); [lia| |];
      rewrite nth_firstn_29 by lia; assumption. }
  cbn [map].
  rewrite (Hrun 0%nat), (Hrun 5%nat), (Hrun 10%nat), (Hrun 19%nat)
    by (cbn [In]; auto 6).
  rewrite (run_length_end (firstn 29 features) 29) by lia.
  reflexivity.
Qed.

Lemma forward_feature_count_witness :
  VGG.forward (VGG.init ExampleNet.features) (ExampleNet.scalar 0) =
    Ok (map ExampleNet.scalar [2; 7; 12; 21; 29]) /\
  length (map ExampleNet.scalar [2; 7; 12; 21; 29]) = 5%nat.
Proof.
  assert (H : VGG.forward (VGG.init ExampleNet.features) (ExampleNet.scalar 0) =
              Ok (map ExampleNet.scalar [2; 7; 12; 21; 29]))
    by (vm_compute; reflexivity).
  split; [exact H|].
  apply (proj1 (proj2 (forward_feature_count _ _ _ H))).
  vm_compute. lia.
Defined.

Lemma forward_fresh_layers_witness :
  exists acts,
    VGG.activations (firstn 29 ExampleNet.fresh_features) (ExampleNet.scalar 0) = Ok acts /\
    map ExampleNet.scalar [1; 6; 11; 20; 29] =
    map (fun k => nth k acts (mkTensor [] [])) [0; 5; 10; 19; 28]%nat.
Proof.
  apply (forward_fresh_layers ExampleNet.fresh_features (ExampleNet.scalar 0)).
  - vm_compute. lia.
  - intros j Hj. do 29 (destruct j as [|j]; [reflexivity|]). lia.
  - vm_compute. reflexivity.
Defined.

Lemma forward_in_place_activations_witness :
  exists acts,
    VGG.activations (firstn 29 ExampleNet.features) (ExampleNet.scalar 0) = Ok acts /\
    map ExampleNet.scalar [2; 7; 12; 21; 29] =
    map (fun k => nth k acts (mkTensor [] [])) [1; 6; 11; 20; 28]%nat.
Proof.
  apply (forward_in_place_activations ExampleNet.features (ExampleNet.scalar 0)).
  - vm_compute. lia.
  - intros k Hk. cbn [In] in Hk.
    destruct Hk as [<-|[<-|[<-|[<-|[]]]]]; split; reflexivity.
  - vm_compute. reflexivity.
Defined.

Lemma last_cons {A : Type} (y : A) (l : list A) (d : A) :
  last (y :: l) d = last l y.
Proof.
  revert y d. induction l as [|a l IH]; intros y d; [reflexivity|].
  change (last (y :: a :: l) d) with (last (a :: l) d).
  rewrite (IH a d), (IH a y). reflexivity.
Qed.

Lemma activations_app (l1 l2 : list VGG.layer) :
  forall v,
    VGG.activations (l1 ++ l2) v =
    (a1 <- VGG.activations l1 v ;;
     a2 <- VGG.activations l2 (last a1 v) ;;
     Ok (a1 ++ a2)).
Proof.
  induction l1 as [|l l1 IH]; intro v.
  - cbn [app VGG.activations bind last].
    destruct (VGG.activations l2 v); reflexivity.
  - cbn [app VGG.activations]. destruct (VGG.apply l v) as [y|e]; [|reflexivity].
    cbn [bind]. rewrite IH.
    destruct (VGG.activations l1 y) as [a1|e]; [|reflexivity].
    cbn [bind]. rewrite last_cons.
    destruct (VGG.activations l2 (last a1 y)); reflexivity.
Qed.

(** X5: a layer among the first 29 that raises on what the layers before
    it produced makes [VGG.forward] raise the same exception; no list of
    features is returned. *)
Theorem forward_layer_failure (features : list VGG.layer) (x : tensor)
  (k : nat) (acts : list tensor) (e : exn) :
  (k < 29)%nat -> (k < length features)%nat ->
  VGG.activations (firstn k features) x = Ok acts ->
  VGG.apply (nth k features (VGG.mkLayer Ok false)) (last acts x) = Raise e ->
  VGG.forward (VGG.init features) x = Raise e.
Proof.
  intros Hk Hlen Hacts Hraise.
  rewrite forward_eq_feature_values. cbn [VGG.model VGG.init].
  set (dl := VGG.mkLayer Ok false) in *.
  assert (Hsplit : firstn 29 features =
            firstn k features ++ nth k features dl :: skipn (S k) (firstn 29 features)).
  { rewrite <- (firstn_skipn k (firstn 29 features)) at 1.
    rewrite firstn_firstn. replace (Nat.min k 29) with k by lia.
    f_equal. rewrite (skipn_cons_nth _ dl k) by (rewrite length_firstn; lia).
    rewrite nth_firstn_29 by exact Hk. reflexivity. }
  rewrite Hsplit, activations_app, Hacts. cbn [bind VGG.activations].
  rewrite Hraise. reflexivity.
Qed.

Lemma forward_layer_failure_witness :
  VGG.forward (VGG.init ExampleNet.broken_features) (ExampleNet.scalar 0) =
  Raise RuntimeError.
Proof.
  apply (forward_layer_failure ExampleNet.broken_features (ExampleNet.scalar 0) 7
           (map ExampleNet.scalar [1; 2; 3; 4; 5; 6; 7])).
  - lia.
  - vm_compute. lia.
  - vm_compute. reflexivity.
  - reflexivity.
Defined.

(** * The run as a whole *)

Section RunFacts.

Context {optstate : Type} (E : env optstate).

Let reports (step : nat) : bool := (step mod report_interval E =? 0)%nat.

(** Everything a body that ends without raising has done. *)
Lemma iteration_None_inv (step : nat) (st st' : loop_state optstate) :
  iteration E step st = (st', None) ->
  exists c s,
    losses E (generated st) = Ok (c, s) /\
    (optimizer st', generated st') = update E (optimizer st, generated st) /\
    stdout st' = stdout st ++
      (if reports step
       then [mkRecord step (total_steps E) c s (total_loss (alpha E) (beta E) c s)]
       else []) /\
    files st' = files st ++ (if reports step then [(step, generated st')] else []).
Proof.
  unfold iteration, update, reports. cbn [fst snd].
  destruct (losses E (generated st)) as [[c s]|e]; [|intro H; discriminate H].
  destruct (optimizer_step E _ _ _) as [opt' gen'].
  destruct (report_interval E =? 0)%nat; [intro H; discriminate H|].
  destruct (step mod report_interval E =? 0)%nat.
  - destruct (save_image E gen' step); intro H; [|discriminate H].
    injection H as <-. exists c, s. repeat split.
  - intro H. injection H as <-. exists c, s. cbn [stdout files generated optimizer].
    rewrite !app_nil_r. repeat split.
Qed.

Lemma for_range_trajectory (m : nat) :
  forall (k : nat) (st st' : loop_state optstate),
    (optimizer st, generated st) = updates E k ->
    for_range E (seq k m) st = (st', None) ->
    (optimizer st', generated st') = updates E (k + m) /\
    files st' = files st ++
      map (fun j => (j, snd (updates E (S j)))) (filter reports (seq k m)) /\
    exists recs,
      stdout st' = stdout st ++ recs /\ Forall (reports_losses_before_update E) recs.
Proof.
  induction m as [|m IH]; intros k st st' Hst Hrun.
  - cbn [seq for_range] in Hrun. injection Hrun as <-.
    rewrite Nat.add_0_r. split; [exact Hst|]. split.
    + cbn. rewrite app_nil_r. reflexivity.
    + exists []. rewrite app_nil_r. split; [reflexivity | constructor].
  - cbn [seq for_range] in Hrun.
    destruct (iteration E k st) as [st1 [e|]] eqn:Hit; [discriminate Hrun|].
    destruct (iteration_None_inv k st st1 Hit) as [c [s [Hl [Hupd [Hout Hfiles]]]]].
    assert (Hst1 : (optimizer st1, generated st1) = updates E (S k)).
    { rewrite Hupd, Hst. reflexivity. }
    destruct (IH (S k) st1 st' Hst1 Hrun) as [Hfin [Hf [recs [Ho HF]]]].
    assert (Hgen1 : generated st1 = snd (updates E (S k))) by (rewrite <- Hst1; reflexivity).
    assert (Hgen : generated st = snd (updates E k)) by (rewrite <- Hst; reflexivity).
    split; [rewrite Hfin; f_equal; lia|]. split.
    + rewrite Hf, Hfiles, <- app_assoc. f_equal. cbn [seq filter].
      unfold reports. destruct (k mod report_interval E =? 0)%nat; [|reflexivity].
      cbn [map app]. rewrite Hgen1. reflexivity.
    + rewrite Ho, Hout, <- app_assoc.
      eexists. split; [reflexivity|].
      apply Forall_app. split; [|exact HF].
      unfold reports. destruct (k mod report_interval E =? 0)%nat; [|constructor].
      constructor; [|constructor].
      split; cbn [rec_step rec_content_loss rec_style_loss rec_total_loss];
        [rewrite <- Hgen; exact Hl | reflexivity].
Qed.

Lemma completed_run :
  fst (final E) = Completed ->
  snd (final E) = fst (run E) /\ run E = (fst (run E), None).
Proof.
  intro H. rewrite final_run in H |- *. cbn [fst snd] in *.
  split; [reflexivity|].
  destruct (run E) as [st' [e|]]; [discriminate H | reflexivity].
Qed.

End RunFacts.

(** X6: a run that completes has applied exactly [total_steps] updates to
    the candidate and the optimiser state, one per iteration; neither the
    report interval nor the image writer has a part in the result. *)
Theorem completed_run_updates {optstate : Type} (E : env optstate) :
  fst (final E) = Completed ->
  (optimizer (snd (final E)), generated (snd (final E))) = updates E (total_steps E).
Proof.
  intro H. destruct (completed_run E H) as [Hfin Hrun].
  rewrite Hfin. unfold run in *.
  destruct (for_range_trajectory E (total_steps E) 0 (initial_state E) _
              eq_refl Hrun) as [Hupd _].
  exact Hupd.
Qed.

Lemma completed_run_updates_witness :
  let E := Example.toy_env 5 2 (fun _ => true) in
  (optimizer (snd (final E)), generated (snd (final E))) = (5%nat, Example.content_img).
Proof.
  intro E.
  apply (completed_run_updates E).
  vm_compute. reflexivity.
Defined.

(** X7: in a run that completes, the images written are those of the
    reporting steps, in order, and the image written at step k is the
    candidate after the update of step k, that is after k + 1 updates. *)
Theorem completed_run_checkpoints {optstate : Type} (E : env optstate) :
  fst (final E) = Completed ->
  files (snd (final E)) =
  map (fun k => (k, snd (updates E (S k)))) (report_steps E).
Proof.
  intro H. destruct (completed_run E H) as [Hfin Hrun].
  rewrite Hfin. unfold run in *.
  destruct (for_range_trajectory E (total_steps E) 0 (initial_state E) _
              eq_refl Hrun) as [_ [Hfiles _]].
  exact Hfiles.
Qed.

Lemma completed_run_checkpoints_witness :
  let E := Example.toy_env 5 2 (fun _ => true) in
  files (snd (final E)) =
  map (fun k => (k, snd (updates E (S k)))) [0; 2; 4]%nat.
Proof.
  intro E.
  apply (completed_run_checkpoints E).
  vm_compute. reflexivity.
Defined.

(** X8: in a run that completes, the record printed at step k carries the
    losses of the candidate after k updates, the one the iteration
    started from, and the total computed from them. *)
Theorem completed_run_records {optstate : Type} (E : env optstate) :
  fst (final E) = Completed ->
  Forall (reports_losses_before_update E) (stdout (snd (final E))).
Proof.
  intro H. destruct (completed_run E H) as [Hfin Hrun].
  rewrite Hfin. unfold run in *.
  destruct (for_range_trajectory E (total_steps E) 0 (initial_state E) _
              eq_refl Hrun) as [_ [_ [recs [Hout HF]]]].
  rewrite Hout. exact HF.
Qed.

Lemma completed_run_records_witness :
  let E := Example.toy_env 5 2 (fun _ => true) in
  Forall (reports_losses_before_update E) (stdout (snd (final E))).
Proof.
  intro E.
  apply (completed_run_records E).
  vm_compute. reflexivity.
Defined.

Section RunInvariants.

Context {optstate : Type} (E : env optstate).

Lemma for_range_app (l1 l2 : list nat) (st : loop_state optstate) :
  for_range E (l1 ++ l2) st =
  match for_range E l1 st with
  | (st', None) => for_range E l2 st'
  | (st', Some e) => (st', Some e)
  end.
Proof.
  revert st. induction l1 as [|k l1 IH]; intro st; [reflexivity|].
  cbn [app for_range]. destruct (iteration E k st) as [st' [e|]]; [reflexivity|].
  apply IH.
Qed.

(** What any body, raising or not, does to the lines and to the files. *)
Lemma iteration_lines_files (step : nat) (st : loop_state optstate) :
  match iteration E step st with
  | (st', None) =>
      exists A,
        map rec_step (stdout st') = map rec_step (stdout st) ++ A /\
        map fst (files st') = map fst (files st) ++ A
  | (st', Some _) =>
      files st' = files st /\
      (stdout st' = stdout st \/ exists r, stdout st' = stdout st ++ [r])
  end.
Proof.
  unfold iteration.
  destruct (losses E (generated st)) as [[c s]|e]; [|split; [reflexivity | left; reflexivity]].
  destruct (optimizer_step E _ _ _) as [opt' gen'].
  destruct (report_interval E =? 0)%nat; [split; [reflexivity | left; reflexivity]|].
  destruct (step mod report_interval E =? 0)%nat.
  - destruct (save_image E gen' step).
    + exists [step]. cbn [stdout files]. rewrite !map_app. split; reflexivity.
    + split; [reflexivity|]. right. eexists. reflexivity.
  - exists []. cbn [stdout files]. rewrite !app_nil_r. split; reflexivity.
Qed.

Lemma for_range_lines_files (l : list nat) :
  forall st,
    map rec_step (stdout st) = map fst (files st) ->
    exists tail,
      map rec_step (stdout (fst (for_range E l st))) =
        map fst (files (fst (for_range E l st))) ++ tail /\
      (length tail <= 1)%nat /\
      (snd (for_range E l st) = None -> tail = []).
Proof.
  induction l as [|k l IH]; intros st Hst.
  - exists []. cbn [for_range fst snd]. rewrite app_nil_r. auto.
  - cbn [for_range]. pose proof (iteration_lines_files k st) as Hit.
    destruct (iteration E k st) as [st' [e|]].
    + destruct Hit as [Hf [Hs | [r Hs]]]; cbn [fst snd]; rewrite Hf, Hs.
      * exists []. rewrite app_nil_r. split; [exact Hst|].
        split; [cbn; lia | reflexivity].
      * exists [rec_step r]. rewrite map_app, Hst. split; [reflexivity|].
        split; [cbn; lia | intro H; discriminate H].
    + destruct Hit as [A [Hs Hf]]. apply IH. rewrite Hs, Hf, Hst. reflexivity.
Qed.

(** An invariant of the loop state that every body keeps, raising or
    not, holds of the state the loop ends in. *)
Lemma for_range_preserves (P : loop_state optstate -> Prop) :
  (forall step st, P st -> P (fst (iteration E step st))) ->
  forall l st, P st -> P (fst (for_range E l st)).
Proof.
  intros Hstep l. induction l as [|k l IH]; intros st Hst; [exact Hst|].
  cbn [for_range]. specialize (Hstep k st Hst).
  destruct (iteration E k st) as [st' [e|]]; cbn [fst] in *; auto.
Qed.

Lemma iteration_appends (step : nat) (st : loop_state optstate) :
  stdout (fst (iteration E step st)) = stdout st \/
  exists c s,
    losses E (generated st) = Ok (c, s) /\
    stdout (fst (iteration E step st)) =
      stdout st ++ [mkRecord step (total_steps E) c s
                      (total_loss (alpha E) (beta E) c s)].
Proof.
  unfold iteration.
  destruct (losses E (generated st)) as [[c s]|e]; [|left; reflexivity].
  destruct (optimizer_step E _ _ _) as [opt' gen'].
  destruct (report_interval E =? 0)%nat; [left; reflexivity|].
  destruct (step mod report_interval E =? 0)%nat; [|left; reflexivity].
  right. exists c, s. split; [reflexivity|].
  destruct (save_image E gen' step); reflexivity.
Qed.

End RunInvariants.

(** X9: the progress line of a step is printed before its image is
    written.  Whatever way the run ends, every image written has its
    line, in the same order; at most one line, the last, has no image,
    and only in a run that ended with an exception. *)
Theorem lines_cover_files {optstate : Type} (E : env optstate) :
  exists tail,
    map rec_step (stdout (snd (final E))) = map fst (files (snd (final E))) ++ tail /\
    (length tail <= 1)%nat /\
    (fst (final E) = Completed -> tail = []).
Proof.
  rewrite final_run. cbn [fst snd]. unfold run.
  destruct (for_range_lines_files E (seq 0 (total_steps E)) (initial_state E) eq_refl)
    as [tail [Heq [Hlen Hnone]]].
  exists tail. split; [exact Heq|]. split; [exact Hlen|].
  intro H. apply Hnone.
  destruct (snd (for_range E (seq 0 (total_steps E)) (initial_state E)));
    [discriminate H | reflexivity].
Qed.

Lemma lines_cover_files_witness :
  let E := Example.toy_env 5 2 (fun _ => true) in
  map rec_step (stdout (snd (final E))) = map fst (files (snd (final E))).
Proof.
  intro E.
  assert (Hfin : fst (final E) = Completed) by (vm_compute; reflexivity).
  destruct (lines_cover_files E) as [tail [Heq [_ Hc]]].
  rewrite (Hc Hfin), app_nil_r in Heq. exact Heq.
Defined.

(** ** Signs of the reported losses *)

Lemma layer_losses_nonneg (g o s : tensor) (c_term s_term : Q) :
  layer_losses g o s = Ok (c_term, s_term) -> 0 <= c_term /\ 0 <= s_term.
Proof.
  unfold layer_losses. intro H.
  inv_bind H. destruct a as [[[b c] h] w]. cbn zeta in H.
  inv_bind H. rename a into d.
  inv_bind H. rename a into G.
  inv_bind H. rename a into A.
  inv_bind H. rename a into d'.
  injection H as <- <-. split; apply mean_square_nonneg.
Qed.

Lemma accumulate_nonneg (gs : list tensor) :
  forall os ss c0 s0 c s,
    accumulate gs os ss c0 s0 = Ok (c, s) ->
    0 <= c0 -> 0 <= s0 -> 0 <= c /\ 0 <= s.
Proof.
  induction gs as [|g gs IH]; intros os ss c0 s0 c s H Hc Hs.
  - simpl in H. injection H as <- <-. auto.
  - destruct os as [|o os]; [simpl in H; injection H as <- <-; auto|].
    destruct ss as [|t ss]; [simpl in H; injection H as <- <-; auto|].
    simpl in H. inv_bind H. destruct a as [c_term s_term].
    destruct (layer_losses_nonneg g o t c_term s_term Ha) as [Hc' Hs'].
    apply (IH os ss (c0 + c_term) (s0 + s_term) c s H); lra.
Qed.

Lemma losses_nonneg {optstate : Type} (E : env optstate) (gen : tensor) (c s : Q) :
  losses E gen = Ok (c, s) -> 0 <= c /\ 0 <= s.
Proof.
  unfold losses. intro H.
  inv_bind H. inv_bind H. inv_bind H.
  apply (accumulate_nonneg _ _ _ 0 0 c s H); lra.
Qed.

(** X10: whatever way the run ends, no record it printed carries a
    negative content loss or style loss; with weights alpha and beta that
    are not negative, as in the notebook, no total loss is negative
    either. *)
Theorem reported_losses_nonnegative {optstate : Type} (E : env optstate) :
  Forall (fun r => 0 <= rec_content_loss r /\ 0 <= rec_style_loss r)
         (stdout (snd (final E))) /\
  (0 <= alpha E -> 0 <= beta E ->
   Forall (fun r => 0 <= rec_total_loss r) (stdout (snd (final E)))).
Proof.
  rewrite final_run. cbn [snd]. unfold run.
  set (Good := fun r : progress_record =>
         0 <= rec_content_loss r /\ 0 <= rec_style_loss r /\
         (0 <= alpha E -> 0 <= beta E -> 0 <= rec_total_loss r)).
  assert (H : Forall Good
            (stdout (fst (for_range E (seq 0 (total_steps E)) (initial_state E))))).
  { apply (for_range_preserves E (fun st => Forall Good (stdout st)));
      [|constructor].
    intros step st Hst.
    destruct (iteration_appends E step st) as [-> | [c [s [Hl ->]]]]; [exact Hst|].
    apply Forall_app. split; [exact Hst|].
    constructor; [|constructor].
    destruct (losses_nonneg E _ c s Hl) as [Hc Hs].
    unfold Good, total_loss.
    cbn [rec_content_loss rec_style_loss rec_total_loss].
    split; [exact Hc|]. split; [exact Hs|]. intros Ha Hb. nra. }
  split.
  - eapply Forall_impl; [|exact H]. intros r [Hc [Hs _]]. auto.
  - intros Ha Hb. eapply Forall_impl; [|exact H]. intros r [_ [_ Ht]]. auto.
Qed.

Lemma reported_losses_nonnegative_witness :
  let E := Example.reference_env in
  Forall (fun r => 0 <= rec_total_loss r) (stdout (snd (final E))).
Proof.
  intro E.
  apply (proj2 (reported_losses_nonnegative E)).
  - vm_compute. intro H. discriminate H.
  - vm_compute. intro H. discriminate H.
Defined.

(** X11: an exception raised while the losses of iteration k are
    computed (by the extractor, by the unpacking of the sizes, by a
    reshape) ends the run with that exception.  The state is the one the
    first k iterations left: the candidate after k updates, with no
    update, line or image from iteration k. *)
Theorem loss_failure_ends_run {optstate : Type} (E : env optstate)
  (k : nat) (st : loop_state optstate) (e : exn) :
  (k < total_steps E)%nat ->
  for_range E (seq 0 k) (initial_state E) = (st, None) ->
  losses E (generated st) = Raise e ->
  run E = (st, Some e) /\
  final E = (Aborted e, st) /\
  (optimizer st, generated st) = updates E k.
Proof.
  intros Hk Hprefix Hraise.
  assert (Hrun : run E = (st, Some e)).
  { unfold run.
    replace (total_steps E) with (k + S (total_steps E - S k))%nat by lia.
    rewrite seq_app, for_range_app, Hprefix.
    cbn [seq for_range]. rewrite (iteration_raise E _ st e Hraise). reflexivity. }
  split; [exact Hrun|]. split.
  - rewrite final_run, Hrun. reflexivity.
  - destruct (for_range_trajectory E k 0 (initial_state E) st eq_refl Hprefix)
      as [Hupd _].
    exact Hupd.
Qed.

Lemma loss_failure_ends_run_witness :
  let E := ExampleDrift.drifting_env 5 2 in
  exists st,
    run E = (st, Some ValueError) /\
    final E = (Aborted ValueError, st) /\
    (optimizer st, generated st) = (2%nat, mkTensor [2%nat] [0; 0]).
Proof.
  intro E.
  eexists.
  apply (loss_failure_ends_run E 2).
  - vm_compute. lia.
  - vm_compute. reflexivity.
  - vm_compute. reflexivity.
Defined.

(** * The loop body against the loss functions *)

(** X12: the term a pass of the inner loop adds to [c_loss] is
    [content_loss] of the generated and the content feature: for the
    content part the loop and the function agree. *)
Theorem loop_content_term_is_content_loss (g o s : tensor) (c_term s_term : Q) :
  layer_losses g o s = Ok (c_term, s_term) ->
  content_loss g o = Ok c_term.
Proof.
  unfold layer_losses, content_loss. intro H.
  inv_bind H. destruct a as [[[b c] h] w]. cbn zeta in H.
  inv_bind H. rename a into d. rewrite Ha0. cbn [bind].
  inv_bind H. inv_bind H. inv_bind H.
  injection H as <- _. reflexivity.
Qed.

Lemma loop_content_term_is_content_loss_witness :
  content_loss (mkTensor [1; 2; 1; 3]%nat [1; 2; 3; 4; 5; 6])
               (mkTensor [1; 2; 1; 3]%nat [6; 5; 4; 3; 2; 1])
  = Ok (70 # 6).
Proof.
  apply (loop_content_term_is_content_loss
           (mkTensor [1; 2; 1; 3]%nat [1; 2; 3; 4; 5; 6])
           (mkTensor [1; 2; 1; 3]%nat [6; 5; 4; 3; 2; 1])
           (mkTensor [1; 2; 1; 3]%nat [0; 1; 0; 1; 0; 1])
           (70 # 6) (7842 # 4)).
  vm_compute. reflexivity.
Defined.

(** X14: [style_loss] accepts a style feature whose height and width
    differ from the generated feature's, as long as the channels agree;
    the loop body does not: it reshapes the style feature with the sizes
    of the generated one and raises when the element counts differ. *)
Theorem loop_needs_equal_feature_sizes (g o s : tensor) (c h w h' w' : nat) :
  shape g = [1%nat; c; h; w] -> shape o = shape g ->
  shape s = [1%nat; c; h'; w'] ->
  (c * (h * w) <> c * (h' * w'))%nat ->
  layer_losses g o s = Raise RuntimeError /\
  exists q, style_loss g s = Ok q.
Proof.
  intros Hg Ho Hs Hne. split.
  - unfold layer_losses, size4. rewrite Hg. cbn [bind].
    rewrite (sub_same_shape g o) by congruence. cbn [bind].
    rewrite !inline_gram_eq. unfold numel. rewrite Hg, Hs, !numel_of_feature.
    replace (1 * (c * (h * w)))%nat with (c * (h * w))%nat by lia.
    rewrite Nat.eqb_refl. cbn [bind].
    replace (c * (h * w) =? 1 * (c * (h' * w')))%nat with false
      by (symmetry; apply Nat.eqb_neq; lia).
    reflexivity.
  - destruct (style_loss_batch1 g s c h w h' w' Hg Hs) as [G [A [_ [_ [_ Hl]]]]].
    eexists. exact Hl.
Qed.

Lemma loop_needs_equal_feature_sizes_witness :
  layer_losses (mkTensor [1; 2; 1; 3]%nat [1; 2; 3; 4; 5; 6])
               (mkTensor [1; 2; 1; 3]%nat [6; 5; 4; 3; 2; 1])
               (mkTensor [1; 2; 1; 2]%nat [0; 1; 0; 1]) = Raise RuntimeError /\
  exists q,
    style_loss (mkTensor [1; 2; 1; 3]%nat [1; 2; 3; 4; 5; 6])
               (mkTensor [1; 2; 1; 2]%nat [0; 1; 0; 1]) = Ok q.
Proof.
  apply (loop_needs_equal_feature_sizes
           (mkTensor [1; 2; 1; 3]%nat [1; 2; 3; 4; 5; 6])
           (mkTensor [1; 2; 1; 3]%nat [6; 5; 4; 3; 2; 1])
           (mkTensor [1; 2; 1; 2]%nat [0; 1; 0; 1]) 2 1 3 1 2).
  - reflexivity.
  - reflexivity.
  - reflexivity.
  - simpl. lia.
Defined.

(** * More on the loss functions *)

Lemma sum_squares_swap (l1 l2 : list Q) :
  Qsum (map (fun q => q * q) (zip_with Qminus l1 l2)) ==
  Qsum (map (fun q => q * q) (zip_with Qminus l2 l1)).
Proof.
  revert l2. induction l1 as [|a l1 IH]; intros [|b l2]; simpl; try reflexivity.
  rewrite IH. ring.
Qed.

Lemma mean_square_swap (s : list nat) (l1 l2 : list Q) :
  mean (square (mkTensor s (zip_with Qminus l1 l2))) ==
  mean (square (mkTensor s (zip_with Qminus l2 l1))).
Proof.
  unfold mean, square, numel. cbn [data shape].
  rewrite sum_squares_swap. reflexivity.
Qed.

(** X15: both losses are symmetric: exchanging the two features does not
    change the value. *)
Theorem losses_symmetric (a b : tensor) :
  shape a = shape b ->
  (exists q q', content_loss a b = Ok q /\ content_loss b a = Ok q' /\ q == q') /\
  (forall c h w, shape a = [1%nat; c; h; w] ->
     exists q q', style_loss a b = Ok q /\ style_loss b a = Ok q' /\ q == q').
Proof.
  intro Hs. split.
  - rewrite (content_loss_same_shape a b Hs).
    rewrite (content_loss_same_shape b a (eq_sym Hs)).
    do 2 eexists. split; [reflexivity|]. split; [reflexivity|].
    rewrite Hs. apply mean_square_swap.
  - intros c h w Ha.
    assert (Hb : shape b = [1%nat; c; h; w]) by congruence.
    destruct (style_loss_batch1 a b c h w h w Ha Hb) as [G [A [HG [HA [HGA Hl]]]]].
    destruct (style_loss_batch1 b a c h w h w Hb Ha) as [G' [A' [HG' [HA' [_ Hl']]]]].
    assert (G' = A) by congruence. assert (A' = G) by congruence. subst G' A'.
    rewrite Hl, Hl'. do 2 eexists. split; [reflexivity|]. split; [reflexivity|].
    rewrite HGA. apply mean_square_swap.
Qed.

Lemma losses_symmetric_witness :
  exists q q',
    content_loss (mkTensor [1; 2; 1; 3]%nat [1; 2; 3; 4; 5; 6])
                 (mkTensor [1; 2; 1; 3]%nat [6; 5; 4; 3; 2; 1]) = Ok q /\
    content_loss (mkTensor [1; 2; 1; 3]%nat [6; 5; 4; 3; 2; 1])
                 (mkTensor [1; 2; 1; 3]%nat [1; 2; 3; 4; 5; 6]) = Ok q' /\
    q == q'.
Proof.
  apply (losses_symmetric
           (mkTensor [1; 2; 1; 3]%nat [1; 2; 3; 4; 5; 6])
           (mkTensor [1; 2; 1; 3]%nat [6; 5; 4; 3; 2; 1])).
  reflexivity.
Defined.


(** * Ranks and the batch dimension *)

(** X18: a tensor whose rank is not four is refused at the unpacking of
    its sizes, with a [ValueError]: by [gram_matrix], by [style_loss] on
    its first argument, and by the loop body on the generated feature. *)
Theorem wrong_rank_is_value_error (x : tensor) :
  length (shape x) <> 4%nat ->
  gram_matrix x = Raise ValueError /\
  (forall s, style_loss x s = Raise ValueError) /\
  (forall o s, layer_losses x o s = Raise ValueError).
Proof.
  intro H.
  assert (Hsize : size4 x = Raise ValueError).
  { unfold size4. destruct (shape x) as [|b [|c [|h [|w [|? ?]]]]]; try reflexivity.
    exfalso. apply H. reflexivity. }
  split; [|split].
  - apply gram_matrix_rank. exact H.
  - intro s. unfold style_loss. rewrite (gram_matrix_rank x H). reflexivity.
  - intros o s. unfold layer_losses. rewrite Hsize. reflexivity.
Qed.

Lemma wrong_rank_is_value_error_witness :
  gram_matrix (mkTensor [2; 1; 3]%nat [1; 2; 3; 4; 5; 6]) = Raise ValueError.
Proof.
  assert (Hrank : length (shape (mkTensor [2; 1; 3]%nat [1; 2; 3; 4; 5; 6])) <> 4%nat)
    by (simpl; lia).
  exact (proj1 (wrong_rank_is_value_error _ Hrank)).
Defined.

(** X19: [load_image] hands back the loader's tensor with a batch
    dimension of 1 in front and the same elements.  For an image of rank
    three, (channels, height, width), that dimension is what the
    unpacking in [gram_matrix] needs: on the loaded image [gram_matrix]
    returns a channels x channels matrix, on the loader's tensor itself
    it raises. *)
Theorem load_image_adds_batch_dimension
  (open_and_load : String.string -> outcome tensor) (image_name : String.string)
  (img : tensor) (c h w : nat) :
  open_and_load image_name = Ok img ->
  shape img = [c; h; w] ->
  wf img ->
  exists x,
    load_image open_and_load image_name = Ok x /\
    shape x = [1%nat; c; h; w] /\ data x = data img /\ wf x /\
    gram_matrix img = Raise ValueError /\
    exists G, gram_matrix x = Ok G /\ shape G = [c; c].
Proof.
  intros Hopen Hs Hwf. exists (unsqueeze0 img).
  unfold load_image. rewrite Hopen. cbn [bind].
  assert (Hx : shape (unsqueeze0 img) = [1%nat; c; h; w])
    by (unfold unsqueeze0; cbn [shape]; rewrite Hs; reflexivity).
  split; [reflexivity|]. split; [exact Hx|]. split; [reflexivity|]. split.
  - unfold wf, numel in *. rewrite Hx. cbn [unsqueeze0 data].
    rewrite Hwf, Hs. unfold numel_of. simpl. lia.
  - split.
    + apply gram_matrix_rank. rewrite Hs. simpl. lia.
    + rewrite (gram_matrix_batch1 _ c h w Hx). eexists. split; reflexivity.
Qed.

Lemma load_image_adds_batch_dimension_witness :
  exists x,
    load_image (fun _ => Ok (mkTensor [2; 1; 3]%nat [1; 2; 3; 4; 5; 6]))
               String.EmptyString = Ok x /\
    shape x = [1; 2; 1; 3]%nat /\
    data x = [1; 2; 3; 4; 5; 6] /\ wf x /\
    gram_matrix (mkTensor [2; 1; 3]%nat [1; 2; 3; 4; 5; 6]) = Raise ValueError /\
    exists G, gram_matrix x = Ok G /\ shape G = [2; 2]%nat.
Proof.
  apply (load_image_adds_batch_dimension
           (fun _ => Ok (mkTensor [2; 1; 3]%nat [1; 2; 3; 4; 5; 6]))
           String.EmptyString
           (mkTensor [2; 1; 3]%nat [1; 2; 3; 4; 5; 6]) 2 1 3).
  - reflexivity.
  - reflexivity.
  - reflexivity.
Defined.

(** * Names of the written images *)

Lemma str_injective (j k : nat) : VGG.str j = VGG.str k -> j = k.
Proof.
  unfold VGG.str. intro H.
  apply (f_equal DecimalString.NilEmpty.uint_of_string) in H.
  rewrite !DecimalString.NilEmpty.usu in H. injection H as H.
  apply (f_equal Nat.of_uint) in H.
  rewrite !DecimalNat.Unsigned.of_to in H. exact H.
Qed.

Lemma string_length_append (s1 s2 : String.string) :
  String.length (String.append s1 s2) = (String.length s1 + String.length s2)%nat.
Proof.
  induction s1 as [|a s1 IH]; simpl; [reflexivity|]. rewrite IH. reflexivity.
Qed.

Lemma string_append_cancel_r (t : String.string) :
  forall s1 s2, String.append s1 t = String.append s2 t -> s1 = s2.
Proof.
  induction s1 as [|a s1 IH]; intros [|b s2] H; simpl in H.
  - reflexivity.
  - apply (f_equal String.length) in H. simpl in H.
    rewrite string_length_append in H. lia.
  - apply (f_equal String.length) in H. simpl in H.
    rewrite string_length_append in H. lia.
  - injection H as <- H. f_equal. apply IH. exact H.
Qed.

Lemma checkpoint_name_injective (j k : nat) :
  VGG.checkpoint_name j = VGG.checkpoint_name k -> j = k.
Proof.
  unfold VGG.checkpoint_name. intro H. cbn [String.append] in H.
  injection H as H.
  apply str_injective. apply (string_append_cancel_r _ _ _ H).
Qed.

Lemma NoDup_map_injective {A B : Type} (f : A -> B) (l : list A) :
  (forall a b, f a = f b -> a = b) -> NoDup l -> NoDup (map f l).
Proof.
  intros Hinj H. induction H as [|a l Hnotin _ IH]; simpl; constructor; [|exact IH].
  intro Hin. apply in_map_iff in Hin. destruct Hin as [b [Hb Hin]].
  apply Hinj in Hb. subst b. contradiction.
Qed.

Section FileSteps.

Context {optstate : Type} (E : env optstate).

Lemma iteration_files (step : nat) (st : loop_state optstate) :
  files (fst (iteration E step st)) = files st \/
  exists g, files (fst (iteration E step st)) = files st ++ [(step, g)].
Proof.
  unfold iteration.
  destruct (losses E (generated st)) as [[c s]|e]; [|left; reflexivity].
  destruct (optimizer_step E _ _ _) as [opt' gen'].
  destruct (report_interval E =? 0)%nat; [left; reflexivity|].
  destruct (step mod report_interval E =? 0)%nat; [|left; reflexivity].
  destruct (save_image E gen' step); [right; eexists|left]; reflexivity.
Qed.

Lemma for_range_file_steps (m : nat) :
  forall (k : nat) (st : loop_state optstate),
    Forall (fun j => (j < k)%nat) (map fst (files st)) ->
    NoDup (map fst (files st)) ->
    Forall (fun j => (j < k + m)%nat)
           (map fst (files (fst (for_range E (seq k m) st)))) /\
    NoDup (map fst (files (fst (for_range E (seq k m) st)))).
Proof.
  induction m as [|m IH]; intros k st Hlt Hnd.
  - cbn [seq for_range fst]. rewrite Nat.add_0_r. auto.
  - cbn [seq for_range].
    assert (Hnext :
      Forall (fun j => (j < S k)%nat) (map fst (files (fst (iteration E k st)))) /\
      NoDup (map fst (files (fst (iteration E k st))))).
    { destruct (iteration_files k st) as [-> | [g ->]].
      - split; [|exact Hnd]. eapply Forall_impl; [|exact Hlt].
        intros j Hj. cbn beta in Hj. lia.
      - rewrite map_app. cbn [map fst]. split.
        + apply Forall_app. split.
          * eapply Forall_impl; [|exact Hlt]. intros j Hj. cbn beta in Hj. lia.
          * constructor; [lia | constructor].
        + apply NoDup_app; [exact Hnd | repeat constructor; intros [] |].
          intros j Hj [<-|[]]. rewrite Forall_forall in Hlt.
          specialize (Hlt _ Hj). cbn beta in Hlt. lia. }
    destruct Hnext as [Hlt' Hnd'].
    destruct (iteration E k st) as [st' [e|]]; cbn [fst] in *.
    + split; [|exact Hnd'].
      eapply Forall_impl; [|exact Hlt']. intros j Hj. cbn beta in Hj. lia.
    + destruct (IH (S k) st' Hlt' Hnd') as [H1 H2].
      split; [|exact H2].
      eapply Forall_impl; [|exact H1]. intros j Hj. cbn beta in Hj. lia.
Qed.

End FileSteps.

(** X20: whatever way the run ends, the images it wrote went to files
    with pairwise different names: no image of the run overwrote
    another. *)
Theorem checkpoints_have_distinct_names {optstate : Type} (E : env optstate) :
  NoDup (map (fun p => VGG.checkpoint_name (fst p)) (files (snd (final E)))).
Proof.
  rewrite final_run. cbn [snd]. unfold run.
  destruct (for_range_file_steps E (total_steps E) 0 (initial_state E))
    as [_ Hnd]; [constructor | constructor |].
  rewrite <- (map_map fst VGG.checkpoint_name).
  apply NoDup_map_injective; [apply checkpoint_name_injective | exact Hnd].
Qed.

(** * The extractor inside the loop *)

Lemma forward_five_features (features : list VGG.layer) (x : tensor)
  (fs : list tensor) :
  VGG.forward (VGG.init features) x = Ok fs ->
  (29 <= length features)%nat ->
  length fs = 5%nat.
Proof.
  intros H Hlen.
  destruct (forward_init_inv features x fs H) as [acts [_ [_ Hfs]]].
  rewrite Hfs, chosen_below_29 by exact Hlen. reflexivity.
Qed.

Lemma accumulate_Ok_per_layer (gs : list tensor) :
  forall os ss c0 s0 c s,
    accumulate gs os ss c0 s0 = Ok (c, s) ->
    exists l,
      per_layer gs os ss = Ok l /\
      length l = Nat.min (length gs) (Nat.min (length os) (length ss)).
Proof.
  induction gs as [|g gs IH]; intros os ss c0 s0 c s H.
  - exists []. split; reflexivity.
  - destruct os as [|o os]; [exists []; split; reflexivity|].
    destruct ss as [|t ss]; [exists []; split; reflexivity|].
    simpl in H. inv_bind H. destruct a as [c_term s_term].
    destruct (IH os ss _ _ c s H) as [l [Hl Hlen]].
    exists ((c_term, s_term) :: l). simpl. rewrite Ha. cbn [bind]. rewrite Hl.
    cbn [bind]. split; [reflexivity|]. simpl in Hlen |- *. rewrite Hlen. reflexivity.
Qed.

(** X21: with [VGG.forward] of a network of at least 29 layers as the
    extractor, every iteration whose losses are computed sums exactly
    five content terms and five style terms, one pair for each chosen
    layer. *)
Theorem five_layers_per_iteration {optstate : Type} (E : env optstate)
  (features : list VGG.layer) (gen : tensor) (c_loss s_loss : Q) :
  model E = VGG.forward (VGG.init features) ->
  (29 <= length features)%nat ->
  losses E gen = Ok (c_loss, s_loss) ->
  exists gs os ss l,
    model E gen = Ok gs /\ model E (original_img E) = Ok os /\
    model E (style_img E) = Ok ss /\
    per_layer gs os ss = Ok l /\
    length l = 5%nat /\
    c_loss == Qsum (map fst l) /\ s_loss == Qsum (map snd l).
Proof.
  intros Hmodel Hlen H. unfold losses in H.
  inv_bind H. rename a into gs. inv_bind H. rename a into os.
  inv_bind H. rename a into ss.
  destruct (accumulate_Ok_per_layer gs os ss 0 0 c_loss s_loss H) as [l [Hl Hn]].
  exists gs, os, ss, l.
  split; [exact Ha|]. split; [exact Ha0|]. split; [exact Ha1|].
  split; [exact Hl|]. split.
  - rewrite Hmodel in Ha, Ha0, Ha1.
    rewrite Hn.
    rewrite (forward_five_features features gen gs Ha Hlen).
    rewrite (forward_five_features features _ os Ha0 Hlen).
    rewrite (forward_five_features features _ ss Ha1 Hlen).
    reflexivity.
  - destruct (accumulate_per_layer gs os ss l Hl 0 0) as [c [s [Hacc [Hc Hs]]]].
    rewrite H in Hacc. injection Hacc as <- <-.
    split; [rewrite Hc | rewrite Hs]; ring.
Qed.

Lemma five_layers_per_iteration_witness :
  let E := ExampleNet.vgg_env 4 2 in
  exists gs os ss l,
    model E Example.content_img = Ok gs /\ model E (original_img E) = Ok os /\
    model E (style_img E) = Ok ss /\
    per_layer gs os ss = Ok l /\
    length l = 5%nat /\
    (0 # 32) == Qsum (map fst l) /\ 24820 == Qsum (map snd l).
Proof.
  intro E.
  apply (five_layers_per_iteration E ExampleNet.features Example.content_img).
  - reflexivity.
  - vm_compute. lia.
  - vm_compute. reflexivity.
Defined.

(** * The loss functions in single precision *)

Section Rounding.

Import Float32.

Lemma round32_zero (q : Q) : q == 0 -> round32 q = Fin 0.
Proof.
  intro H. unfold round32. rewrite (Qred_complete q 0 H). reflexivity.
Qed.

Lemma pow2_pos (e : Z) : 0 < pow2 e.
Proof. unfold pow2. apply Qpower_0_lt. reflexivity. Qed.

Lemma round_half_even_lower (r : Q) : (Qfloor r <= round_half_even r)%Z.
Proof.
  unfold round_half_even.
  destruct (Qcompare (r - inject_Z (Qfloor r)) (1 # 2)); [|lia|lia].
  destruct (Z.even (Qfloor r)); lia.
Qed.

Lemma scaled_nonneg (q : Q) (p : Z) : 0 <= q -> 0 <= q / pow2 p.
Proof.
  intro Hq. unfold Qdiv. apply Qmult_le_0_compat; [exact Hq|].
  apply Qinv_le_0_compat. apply Qlt_le_weak. apply pow2_pos.
Qed.

Lemma round_pos_nonneg (q : Q) : 0 <= q -> nonneg (round_pos q).
Proof.
  intro Hq. unfold round_pos.
  set (p := Z.max (exponent q - 23) (-149)).
  set (m := round_half_even (q / pow2 p)).
  destruct ((104 <? p) || ((p =? 104) && (2 ^ 24 <=? m)))%Z; [exact I|].
  cbn [nonneg]. rewrite Qred_correct.
  apply Qmult_le_0_compat; [|apply Qlt_le_weak, pow2_pos].
  change 0 with (inject_Z 0). rewrite <- Zle_Qle.
  pose proof (round_half_even_lower (q / pow2 p)) as Hlow.
  pose proof (Qfloor_resp_le 0 (q / pow2 p) (scaled_nonneg q p Hq)) as Hf.
  change (Qfloor 0) with 0%Z in Hf. unfold m. lia.
Qed.

Lemma round32_nonneg (q : Q) : 0 <= q -> nonneg (round32 q).
Proof.
  intro Hq. unfold round32.
  assert (Hq' : 0 <= Qred q) by (rewrite Qred_correct; exact Hq).
  destruct (Qnum (Qred q)) eqn:Hn.
  - cbn. apply Qle_refl.
  - apply round_pos_nonneg. exact Hq'.
  - exfalso. unfold Qle in Hq'. rewrite Hn in Hq'. cbn in Hq'. lia.
Qed.

Lemma round_pos_not_nan (q : Q) : round_pos q <> NaN.
Proof.
  unfold round_pos.
  destruct ((104 <? _) || _)%Z; discriminate.
Qed.

Lemma round32_not_nan (q : Q) : round32 q <> NaN.
Proof.
  unfold round32. destruct (Qnum (Qred q)); [discriminate | apply round_pos_not_nan |].
  pose proof (round_pos_not_nan (- Qred q)) as H.
  destruct (round_pos (- Qred q)); cbn; congruence.
Qed.

(** A count of at least one element is a positive float, or +inf. *)
Lemma of_count_positive (n : nat) :
  (0 < n)%nat ->
  of_count n = PInf \/ exists r, of_count n = Fin r /\ 0 < r.
Proof.
  intro Hn. unfold of_count, round32.
  rewrite Qcanon.Qred_identity by (cbn; apply Z.gcd_1_r).
  cbn [Qnum inject_Z].
  destruct (Z.of_nat n) as [|a|a] eqn:Ha; [lia| |lia].
  unfold round_pos.
  set (q := inject_Z (Z.pos a)).
  set (p := Z.max (exponent q - 23) (-149)).
  set (m := round_half_even (q / pow2 p)).
  destruct ((104 <? p) || ((p =? 104) && (2 ^ 24 <=? m)))%Z; [left; reflexivity|].
  right. eexists. split; [reflexivity|].
  rewrite Qred_correct.
  assert (He : (exponent q <= Z.log2 (Z.pos a))%Z).
  { unfold exponent, q. cbn [Qnum Qden inject_Z]. change (Z.log2 1) with 0%Z.
    destruct (Qle_bool _ _); lia. }
  assert (Hlog : (0 <= Z.log2 (Z.pos a))%Z) by apply Z.log2_nonneg.
  assert (Hp : pow2 p <= q).
  { apply Qle_trans with (pow2 (Z.log2 (Z.pos a))).
    - unfold pow2. apply Qpower_le_compat_l; [unfold p; lia | discriminate].
    - unfold pow2. change 2 with (inject_Z 2).
      rewrite <- Zpower_Qpower by exact Hlog.
      unfold q.
      rewrite <- Zle_Qle. apply Z.log2_spec. lia. }
  assert (Hr : 1 <= q / pow2 p).
  { apply Qle_shift_div_l; [apply pow2_pos|]. rewrite Qmult_1_l. exact Hp. }
  assert (Hm : (1 <= m)%Z).
  { pose proof (round_half_even_lower (q / pow2 p)) as Hlow.
    pose proof (Qfloor_resp_le 1 (q / pow2 p) Hr) as Hf.
    change (Qfloor 1) with 1%Z in Hf. unfold m. lia. }
  apply Qmult_lt_0_compat; [|apply pow2_pos].
  change 0 with (inject_Z 0). rewrite <- Zlt_Qlt. lia.
Qed.

(** Below [2^127] the count is a finite float. *)
Lemma of_count_finite (n : nat) :
  (0 < n)%nat -> (Z.of_nat n < 2 ^ 127)%Z ->
  exists r, of_count n = Fin r /\ 0 < r.
Proof.
  intros Hn Hb. destruct (of_count_positive n Hn) as [Hinf|H]; [|exact H].
  exfalso. revert Hinf. unfold of_count, round32.
  rewrite Qcanon.Qred_identity by (cbn; apply Z.gcd_1_r).
  cbn [Qnum inject_Z].
  destruct (Z.of_nat n) as [|a|a] eqn:Ha; [lia| |lia].
  unfold round_pos.
  set (q := inject_Z (Z.pos a)).
  set (p := Z.max (exponent q - 23) (-149)).
  set (m := round_half_even (q / pow2 p)).
  assert (He : (exponent q <= Z.log2 (Z.pos a))%Z).
  { unfold exponent, q. cbn [Qnum Qden inject_Z]. change (Z.log2 1) with 0%Z.
    destruct (Qle_bool _ _); lia. }
  assert (Hlog : (Z.log2 (Z.pos a) < 127)%Z).
  { apply Z.log2_lt_pow2; lia. }
  assert (Hp : (p < 104)%Z) by (unfold p; lia).
  replace (104 <? p)%Z with false by (symmetry; apply Z.ltb_ge; lia).
  replace (p =? 104)%Z with false by (symmetry; apply Z.eqb_neq; lia).
  cbn. discriminate.
Qed.

Lemma fadd_nonneg (a b : num) : nonneg a -> nonneg b -> nonneg (fadd a b).
Proof.
  destruct a as [x| | |], b as [y| | |]; cbn; intros Ha Hb; try contradiction; auto.
  apply round32_nonneg.
  apply (Qplus_le_compat 0 x 0 y); assumption.
Qed.

Lemma sum_from_nonneg (l : list num) :
  forall acc, nonneg acc -> Forall nonneg l -> nonneg (fold_left fadd l acc).
Proof.
  induction l as [|a l IH]; intros acc Hacc Hl; [exact Hacc|].
  inversion Hl as [|? ? Ha Hl']; subst. cbn [fold_left].
  apply IH; [apply fadd_nonneg; assumption | exact Hl'].
Qed.

Lemma fmul_self_nonneg (a : num) : a <> NaN -> nonneg (fmul a a).
Proof.
  destruct a as [x| | |]; cbn; intro H; try exact I; [|congruence].
  apply round32_nonneg. nra.
Qed.

Lemma fsub_finite_not_nan (a b : num) :
  is_finite a = true -> is_finite b = true -> fsub a b <> NaN.
Proof.
  destruct a as [x| | |], b as [y| | |]; cbn; intros Ha Hb; try discriminate.
  apply round32_not_nan.
Qed.

Lemma fsub_self (a : num) : is_finite a = true -> fsub a a = Fin 0.
Proof.
  destruct a as [x| | |]; intro H; try discriminate H.
  unfold fsub, opp, fadd. apply round32_zero. rewrite Qred_correct. ring.
Qed.

Lemma fdiv_nonneg (a : num) (r : Q) : nonneg a -> 0 < r -> nonneg (fdiv a (Fin r)).
Proof.
  intros Ha Hr.
  assert (Hc : Qcompare r 0 = Gt) by (apply Qgt_alt; exact Hr).
  destruct a as [x| | |]; try contradiction; unfold fdiv; rewrite Hc; [|exact I].
  apply round32_nonneg. apply Qle_shift_div_l; [exact Hr|].
  cbn [nonneg] in Ha. lra.
Qed.

Lemma fdiv_zero (d : num) :
  (d = PInf \/ exists r, d = Fin r /\ 0 < r) -> fdiv (Fin 0) d = Fin 0.
Proof.
  intros [-> | [r [-> Hr]]]; [reflexivity|].
  unfold fdiv. replace (Qcompare r 0) with Gt by (symmetry; apply Qgt_alt; exact Hr).
  apply round32_zero. unfold Qdiv. ring.
Qed.

End Rounding.

Section FloatLosses.

Import Float32.

Lemma float_sub_same_shape (a b : Float32.tensor) :
  Float32.shape a = Float32.shape b ->
  Float32.sub a b =
  Ok (Float32.mkTensor (Float32.shape a)
        (Float32.zip_with fsub (Float32.data a) (Float32.data b))).
Proof.
  intro Hs. unfold Float32.sub. rewrite Hs, list_nat_eqb_refl. reflexivity.
Qed.

Lemma zip_with_fsub_self (l : list num) :
  Forall (fun v => is_finite v = true) l ->
  Float32.zip_with fsub l l = map (fun _ => Fin 0) l.
Proof.
  induction 1 as [|v l Hv _ IH]; [reflexivity|].
  cbn [Float32.zip_with map]. rewrite (fsub_self v Hv), IH. reflexivity.
Qed.

Lemma zip_with_fsub_not_nan (l1 : list num) :
  forall l2,
    Forall (fun v => is_finite v = true) l1 ->
    Forall (fun v => is_finite v = true) l2 ->
    Forall (fun v => v <> NaN) (Float32.zip_with fsub l1 l2).
Proof.
  induction l1 as [|x l1 IH]; intros [|y l2] H1 H2; try constructor.
  - inversion H1; inversion H2; subst. apply fsub_finite_not_nan; assumption.
  - inversion H1; inversion H2; subst. apply IH; assumption.
Qed.

Lemma sum_zeros {A : Type} (l : list A) :
  Float32.sum (map (fun x => fmul x x) (map (fun _ : A => Fin 0) l)) = Fin 0.
Proof.
  unfold Float32.sum. rewrite map_map.
  assert (H : forall acc, acc = Fin 0 ->
            fold_left fadd (map (fun _ : A => fmul (Fin 0) (Fin 0)) l) acc = Fin 0).
  { induction l as [|a l IH]; intros acc ->; [reflexivity|].
    cbn [map fold_left]. apply IH. reflexivity. }
  apply H. reflexivity.
Qed.

(** The mean of the squares of a tensor without nan is not negative. *)
Lemma float_mean_square_nonneg (d : Float32.tensor) :
  Forall (fun v => v <> NaN) (Float32.data d) ->
  (0 < Float32.numel d)%nat ->
  (Z.of_nat (Float32.numel d) < 2 ^ 127)%Z ->
  nonneg (Float32.mean (Float32.square d)).
Proof.
  intros Hd Hn Hb. unfold Float32.mean, Float32.square, Float32.numel in *.
  cbn [Float32.data Float32.shape].
  destruct (of_count_finite _ Hn Hb) as [r [-> Hr]].
  apply fdiv_nonneg; [|exact Hr].
  unfold Float32.sum. apply sum_from_nonneg; [cbn; apply Qle_refl|].
  apply Forall_forall. intros v Hv. apply in_map_iff in Hv.
  destruct Hv as [u [<- Hu]]. apply fmul_self_nonneg.
  rewrite Forall_forall in Hd. apply Hd. exact Hu.
Qed.

(** The mean of the squares of a tensor of zeros with at least one
    element is zero. *)
Lemma float_mean_square_zero {A : Type} (s : list nat) (l : list A) :
  (0 < numel_of s)%nat ->
  Float32.mean (Float32.square (Float32.mkTensor s (map (fun _ => Fin 0) l))) = Fin 0.
Proof.
  intro Hn. unfold Float32.mean, Float32.square, Float32.numel.
  cbn [Float32.data Float32.shape]. rewrite sum_zeros.
  apply fdiv_zero. apply of_count_positive. exact Hn.
Qed.

Lemma float_gram_matrix_batch1 (x : Float32.tensor) (c h w : nat) :
  Float32.shape x = [1%nat; c; h; w] ->
  exists G, Float32.gram_matrix x = Ok G /\ Float32.shape G = [c; c].
Proof.
  intro Hs. unfold Float32.gram_matrix, Float32.size4. rewrite Hs. cbn [bind].
  unfold Float32.view, Float32.numel. rewrite Hs, numel_of_matrix, numel_of_feature.
  replace (1 * (c * (h * w)))%nat with (c * (h * w))%nat by lia.
  rewrite Nat.eqb_refl. cbn [bind].
  unfold Float32.t. cbn [Float32.shape bind].
  unfold Float32.mm. cbn [Float32.shape]. rewrite Nat.eqb_refl. cbn [bind].
  eexists. split; reflexivity.
Qed.

End FloatLosses.

(** C7, as the code has it: a feature with at least one element and
    finite elements has content loss zero against itself; its style loss
    against itself is zero when its Gram matrix is finite (no product or
    sum overflowed, and the spatial extent is not zero). *)
Theorem float_self_loss_zero (x : Float32.tensor) :
  Float32.all_finite x ->
  (0 < Float32.numel x)%nat ->
  Float32.content_loss x x = Ok (Float32.Fin 0) /\
  (forall c h w, Float32.shape x = [1%nat; c; h; w] ->
     exists G,
       Float32.gram_matrix x = Ok G /\
       (Float32.all_finite G -> Float32.style_loss x x = Ok (Float32.Fin 0))).
Proof.
  intros Hfin Hn. split.
  - unfold Float32.content_loss.
    rewrite (float_sub_same_shape x x eq_refl). cbn [bind].
    rewrite (zip_with_fsub_self _ Hfin).
    rewrite float_mean_square_zero by exact Hn. reflexivity.
  - intros c h w Hs.
    destruct (float_gram_matrix_batch1 x c h w Hs) as [G [HG HsG]].
    exists G. split; [exact HG|]. intro HGfin.
    unfold Float32.style_loss. rewrite HG. cbn [bind].
    rewrite (float_sub_same_shape G G eq_refl). cbn [bind].
    rewrite (zip_with_fsub_self _ HGfin).
    rewrite float_mean_square_zero; [reflexivity|].
    rewrite HsG, numel_of_matrix.
    unfold Float32.numel in Hn. rewrite Hs, numel_of_feature in Hn.
    destruct c as [|c]; [cbn in Hn; lia | cbn; lia].
Qed.

Lemma float_self_loss_zero_witness :
  let x := Float32.of_tensor (mkTensor [1; 2; 1; 3]%nat [1; 2; 3; 4; 5; 6]) in
  Float32.content_loss x x = Ok (Float32.Fin 0) /\
  Float32.style_loss x x = Ok (Float32.Fin 0).
Proof.
  intro x.
  assert (Hfin : Float32.all_finite x) by (repeat constructor).
  assert (Hn : (0 < Float32.numel x)%nat) by (vm_compute; lia).
  destruct (float_self_loss_zero x Hfin Hn) as [Hc Hs].
  split; [exact Hc|].
  destruct (Hs 2%nat 1%nat 3%nat eq_refl) as [G [HG Hzero]].
  apply Hzero.
  vm_compute in HG. injection HG as <-. repeat constructor.
Defined.

(** C7, as the claim words it, fails: on a tensor without elements both
    losses are nan (0/0 in the mean), and on the finite feature
    [[1e20, 1e20]] the Gram entry overflows and the style loss is nan
    (inf - inf). *)
Lemma self_loss_nan :
  let empty := Float32.of_tensor (mkTensor [1; 0; 3; 3]%nat []) in
  let big := Float32.of_tensor
               (mkTensor [1; 1; 1; 2]%nat
                  [100000000000000000000; 100000000000000000000]) in
  Float32.content_loss empty empty = Ok Float32.NaN /\
  Float32.style_loss empty empty = Ok Float32.NaN /\
  Float32.all_finite big /\
  Float32.style_loss big big = Ok Float32.NaN /\
  ~ (forall x, Float32.content_loss x x = Ok (Float32.Fin 0)) /\
  ~ (forall x c h w, Float32.shape x = [1%nat; c; h; w] -> Float32.all_finite x ->
       Float32.style_loss x x = Ok (Float32.Fin 0)).
Proof.
  intros empty big.
  split; [vm_compute; reflexivity|]. split; [vm_compute; reflexivity|].
  split; [repeat constructor|]. split; [vm_compute; reflexivity|].
  split.
  - intro H. specialize (H empty). vm_compute in H. discriminate H.
  - intro H. specialize (H big 1%nat 1%nat 2%nat eq_refl).
    assert (Hfin : Float32.all_finite big) by (repeat constructor).
    specialize (H Hfin). vm_compute in H. discriminate H.
Qed.

(** C8, as the code has it: on two features of one shape with finite
    elements and at least one element, [content_loss] returns a value
    that is not negative (+inf when a square or the sum overflows);
    [style_loss] returns a value that is not negative when the two Gram
    matrices are finite. *)
Theorem float_losses_nonnegative (a b : Float32.tensor) :
  Float32.shape a = Float32.shape b ->
  Float32.all_finite a -> Float32.all_finite b ->
  (0 < Float32.numel a)%nat ->
  (Z.of_nat (Float32.numel a) < 2 ^ 63)%Z ->
  (exists r, Float32.content_loss a b = Ok r /\ Float32.nonneg r) /\
  (forall c h w, Float32.shape a = [1%nat; c; h; w] ->
     exists G A,
       Float32.gram_matrix a = Ok G /\ Float32.gram_matrix b = Ok A /\
       (Float32.all_finite G -> Float32.all_finite A ->
        exists r, Float32.style_loss a b = Ok r /\ Float32.nonneg r)).
Proof.
  intros Hs Ha Hb Hn Hsize. split.
  - unfold Float32.content_loss.
    rewrite (float_sub_same_shape a b Hs). cbn [bind].
    eexists. split; [reflexivity|].
    apply float_mean_square_nonneg.
    + cbn [Float32.data]. apply zip_with_fsub_not_nan; assumption.
    + exact Hn.
    + unfold Float32.numel in *. cbn [Float32.shape]. lia.
  - intros c h w Hsa.
    assert (Hsb : Float32.shape b = [1%nat; c; h; w]) by congruence.
    destruct (float_gram_matrix_batch1 a c h w Hsa) as [G [HG HsG]].
    destruct (float_gram_matrix_batch1 b c h w Hsb) as [A [HA HsA]].
    exists G, A. split; [exact HG|]. split; [exact HA|].
    intros HGfin HAfin.
    unfold Float32.style_loss. rewrite HG, HA. cbn [bind].
    rewrite (float_sub_same_shape G A) by congruence. cbn [bind].
    eexists. split; [reflexivity|].
    unfold Float32.numel in Hn, Hsize. rewrite Hsa, numel_of_feature in Hn, Hsize.
    assert (Hc : (0 < c)%nat) by (destruct c; [cbn in Hn; lia | lia]).
    assert (Hhw : (0 < h * w)%nat) by (destruct (h * w)%nat; [nia | lia]).
    apply float_mean_square_nonneg.
    + cbn [Float32.data]. apply zip_with_fsub_not_nan; assumption.
    + unfold Float32.numel. cbn [Float32.shape]. rewrite HsG, numel_of_matrix. nia.
    + unfold Float32.numel. cbn [Float32.shape]. rewrite HsG, numel_of_matrix.
      assert (Hcz : (Z.of_nat c < 2 ^ 63)%Z) by nia.
      rewrite Nat2Z.inj_mul.
      assert (Hc0 : (0 < Z.of_nat c)%Z) by lia.
      change (2 ^ 127)%Z with (2 * (2 ^ 63 * 2 ^ 63))%Z. nia.
Qed.

Lemma float_losses_nonnegative_witness :
  let a := Float32.of_tensor (mkTensor [1; 2; 1; 3]%nat [1; 2; 3; 4; 5; 6]) in
  let b := Float32.of_tensor (mkTensor [1; 2; 1; 3]%nat [6; 5; 4; 3; 2; 1]) in
  exists r, Float32.content_loss a b = Ok r /\ Float32.nonneg r.
Proof.
  intros a b.
  apply (float_losses_nonnegative a b).
  - reflexivity.
  - repeat constructor.
  - repeat constructor.
  - vm_compute. lia.
  - vm_compute. reflexivity.
Defined.

(** C8, as the claim words it, fails: on two same-shaped tensors without
    elements both losses are nan, which is not a value that is zero or
    above. *)
Lemma loss_nan_on_empty :
  let empty := Float32.of_tensor (mkTensor [1; 0; 3; 3]%nat []) in
  Float32.shape empty = Float32.shape empty /\
  Float32.content_loss empty empty = Ok Float32.NaN /\
  Float32.style_loss empty empty = Ok Float32.NaN /\
  ~ Float32.nonneg Float32.NaN /\
  ~ (forall a b, Float32.shape a = Float32.shape b ->
       exists r, Float32.content_loss a b = Ok r /\ Float32.nonneg r).
Proof.
  intro empty.
  split; [reflexivity|]. split; [vm_compute; reflexivity|].
  split; [vm_compute; reflexivity|]. split; [intro H; exact H|].
  intro H. destruct (H empty empty eq_refl) as [r [Hr Hnn]].
  vm_compute in Hr. injection Hr as <-. exact Hnn.
Qed.

